(** * AIVulnAgent: remediation workflow and pending-rebuild correlation store

    A shallow embedding of the backend of the vulnerability remediation agent:
    - [services/pendingRebuilds.ts]: the in-memory table of rebuilds that wait
      for the webhook of the external pipeline;
    - [agents/agentNodes.ts], [agents/state.ts]: the stages of the workflow and
      the reducers of its state;
    - [agents/agentMap.ts]: the graph that routes a vulnerability through the
      stages;
    - [tools/githubTools.ts]: the tag-and-dispatch tool, as far as the workflow
      inputs it forwards. *)

From Stdlib Require Import Ascii String.
From stdpp Require Import base option list gmap strings fin_maps pretty.

Local Open Scope string_scope.
Local Open Scope list_scope.

(** ** Shared data ([types/index.ts]) *)

Inductive VulnCategory := container | code.

Inductive Severity := critical | high | medium | low.

Inductive RemediationStatus :=
  | pending_status | classifying | rebuilding | searching_rag | researching
  | creating_pr | creating_tag_workflow | storing_fix | resolved
  | awaiting_approval | awaiting_rebuild | verifying_rebuild | failed.

Inductive StepStatus := step_running | step_completed | step_failed | step_skipped.

#[global] Instance VulnCategory_eq_dec : EqDecision VulnCategory.
Proof. solve_decision. Defined.
#[global] Instance RemediationStatus_eq_dec : EqDecision RemediationStatus.
Proof. solve_decision. Defined.
#[global] Instance StepStatus_eq_dec : EqDecision StepStatus.
Proof. solve_decision. Defined.

(** An optional field of a JS object is an [option]. *)
Record Vulnerability := {
  id : string;
  cveId : string;
  packageName : string;
  currentVersion : string;
  fixedVersion : option string;
  severity : Severity;
  description : string;
  source : string;
  imageName : option string;
  filePath : option string;
  createdAt : string;
  repoOwner : option string;
  repoName : option string;
}.

Record ScanFinding := {
  f_cveId : string;
  f_packageName : string;
  f_severity : string;
  f_fixedVersion : option string;
}.

Record ScanResults := {
  vulnerabilities : list ScanFinding;
  totalCount : nat;
  scanTool : string;
}.

(** Payload sent by the rebuild workflow webhook. *)
Record RebuildScanResult := {
  r_vulnId : string;
  r_cveId : string;
  r_repoOwner : string;
  r_repoName : string;
  r_imageName : string;
  r_tag : string;
  r_workflowRunId : N;
  scanResults : ScanResults;
  buildSuccess : bool;
  r_timestamp : string;
}.

(** A reading of the clock: [Date.now()] and the ISO rendering of the same
    instant ([new Date().toISOString()]). *)
Record Instant := { epoch_ms : N; iso : string }.

(** ** The pending-rebuild store ([services/pendingRebuilds.ts]) *)

Module PendingRebuilds.

(** How a promise ends. *)
Inductive Settlement :=
  | Fulfilled (result : RebuildScanResult)
  | RejectedWith (message : string).

(** [resolve], [reject] and [promise] of an entry are the three faces of one
    deferred value, named here by the handle of the promise. *)
Record PendingRebuild := {
  vulnId : string;
  p_cveId : string;
  p_repoOwner : string;
  p_repoName : string;
  tagName : string;
  p_createdAt : string;
  promise : nat;
  timeoutId : nat;
}.

Record RegisterParams := {
  rp_vulnId : string;
  rp_cveId : string;
  rp_repoOwner : string;
  rp_repoName : string;
  rp_tagName : string;
}.

(** An armed timer of the runtime: when it is due, and what the closure given
    to [setTimeout] captured ([params.vulnId], [params.cveId], [reject]). *)
Record Timer := {
  due : N;
  t_vulnId : string;
  t_cveId : string;
  t_promise : nat;
}.

(** What the module does to the runtime and to its map, in program order. *)
Inductive Effect :=
  | ClearTimeout (t : nat)
  | CallReject (p : nat) (message : string)
  | CallResolve (p : nat) (result : RebuildScanResult)
  | MapDelete (key : string)
  | NewPromise (p : nat)
  | SetTimeout (t : nat) (delay : N)
  | MapSet (key : string).

(** The module-level [pending] map with the part of the runtime it talks to:
    armed timers, promises created so far ([None]: not settled yet), the
    calls made, and the next fresh handles. *)
Record Store := {
  pending : gmap string PendingRebuild;
  timers : gmap nat Timer;
  promises : gmap nat (option Settlement);
  trace : list Effect;
  nextPromise : nat;
  nextTimer : nat;
}.

Definition empty_store : Store :=
  {| pending := ∅; timers := ∅; promises := ∅; trace := [];
     nextPromise := 0; nextTimer := 0 |}.

Definition REBUILD_TIMEOUT_MS : N := 30 * 60 * 1000.

(** Calling [resolve] or [reject] of a promise that is already settled does
    nothing. *)
Definition settle (p : nat) (o : Settlement)
    (ps : gmap nat (option Settlement)) : gmap nat (option Settlement) :=
  match ps !! p with
  | Some None => <[p := Some o]> ps
  | _ => ps
  end.

Definition superseded_message : string := "Superseded by new rebuild".

Definition timeout_message (cve : string) : string :=
  "Rebuild timed out after " +:+ pretty (REBUILD_TIMEOUT_MS / 1000)%N
    +:+ "s for " +:+ cve.

(** The first block of [registerPendingRebuild]: clean up any existing entry
    for this vulnId. *)
Definition supersede (v : string) (s : Store) : Store :=
  match pending s !! v with
  | Some existing =>
      {| pending := delete v (pending s);
         timers := delete (timeoutId existing) (timers s);
         promises := settle (promise existing) (RejectedWith superseded_message)
                       (promises s);
         trace := trace s ++ [ClearTimeout (timeoutId existing);
                              CallReject (promise existing) superseded_message;
                              MapDelete v];
         nextPromise := nextPromise s;
         nextTimer := nextTimer s |}
  | None => s
  end.

Definition registerPendingRebuild (params : RegisterParams) (now : Instant)
    (s : Store) : nat * Store :=
  let s1 := supersede (rp_vulnId params) s in
  let p := nextPromise s1 in
  let t := nextTimer s1 in
  let entry :=
    {| vulnId := rp_vulnId params; p_cveId := rp_cveId params;
       p_repoOwner := rp_repoOwner params; p_repoName := rp_repoName params;
       tagName := rp_tagName params; p_createdAt := iso now;
       promise := p; timeoutId := t |} in
  let timer :=
    {| due := (epoch_ms now + REBUILD_TIMEOUT_MS)%N;
       t_vulnId := rp_vulnId params; t_cveId := rp_cveId params;
       t_promise := p |} in
  (p, {| pending := <[rp_vulnId params := entry]> (pending s1);
         timers := <[t := timer]> (timers s1);
         promises := <[p := None]> (promises s1);
         trace := trace s1 ++ [NewPromise p; SetTimeout t REBUILD_TIMEOUT_MS;
                               MapSet (rp_vulnId params)];
         nextPromise := S p;
         nextTimer := S t |}).

Definition resolvePendingRebuild (v : string) (result : RebuildScanResult)
    (s : Store) : bool * Store :=
  match pending s !! v with
  | None => (false, s)
  | Some entry =>
      (true,
       {| pending := delete v (pending s);
          timers := delete (timeoutId entry) (timers s);
          promises := settle (promise entry) (Fulfilled result) (promises s);
          trace := trace s ++ [ClearTimeout (timeoutId entry);
                               CallResolve (promise entry) result;
                               MapDelete v];
          nextPromise := nextPromise s;
          nextTimer := nextTimer s |})
  end.

(** The body of the closure given to [setTimeout]. *)
Definition timeout_callback (tm : Timer) (s : Store) : Store :=
  match pending s !! t_vulnId tm with
  | Some _ =>
      {| pending := delete (t_vulnId tm) (pending s);
         timers := timers s;
         promises := settle (t_promise tm)
                       (RejectedWith (timeout_message (t_cveId tm))) (promises s);
         trace := trace s ++ [MapDelete (t_vulnId tm);
                              CallReject (t_promise tm)
                                (timeout_message (t_cveId tm))];
         nextPromise := nextPromise s;
         nextTimer := nextTimer s |}
  | None => s
  end.

(** The runtime fires timer [t]: a timer that was cleared, or has fired, is
    not armed and nothing runs; an armed one is disarmed and its callback
    runs. *)
Definition fireTimer (t : nat) (s : Store) : Store :=
  match timers s !! t with
  | None => s
  | Some tm =>
      timeout_callback tm
        {| pending := pending s; timers := delete t (timers s);
           promises := promises s; trace := trace s;
           nextPromise := nextPromise s; nextTimer := nextTimer s |}
  end.

Record PendingInfo := {
  i_vulnId : string;
  i_cveId : string;
  i_repoOwner : string;
  i_repoName : string;
  i_tagName : string;
  i_createdAt : string;
}.

Definition info (e : PendingRebuild) : PendingInfo :=
  {| i_vulnId := vulnId e; i_cveId := p_cveId e; i_repoOwner := p_repoOwner e;
     i_repoName := p_repoName e; i_tagName := tagName e;
     i_createdAt := p_createdAt e |}.

(** [Array.from(pending.values()).map(...)]; the order of the snapshot is not
    modelled. *)
Definition listPendingRebuilds (s : Store) : list PendingInfo :=
  (info ∘ snd) <$> map_to_list (pending s).

(** What can happen to the store: the workflow registers a wait, the webhook
    handler resolves one, the runtime fires a timer. Any timer may fire at any
    moment here; that the runtime waits until a timer is due only removes
    behaviours. *)
Inductive Event :=
  | ev_register (params : RegisterParams) (now : Instant)
  | ev_resolve (v : string) (result : RebuildScanResult)
  | ev_fire (t : nat).

Definition step (s : Store) (e : Event) : Store :=
  match e with
  | ev_register params now => (registerPendingRebuild params now s).2
  | ev_resolve v result => (resolvePendingRebuild v result s).2
  | ev_fire t => fireTimer t s
  end.

Inductive reachable : Store → Prop :=
  | reachable_empty : reachable empty_store
  | reachable_step s e : reachable s → reachable (step s e).

(** The promises on which [resolve] or [reject] was called, in order. *)
Definition completed (e : Effect) : option nat :=
  match e with
  | CallReject p _ => Some p
  | CallResolve p _ => Some p
  | _ => None
  end.

Definition completions (tr : list Effect) : list nat := omap completed tr.

(** The entries of a snapshot for one vulnId. *)
Definition entries_for (v : string) (l : list PendingInfo) : list PendingInfo :=
  filter (λ i, i_vulnId i = v) l.

(** What holds of every store the three operations can produce. *)
Record consistent (s : Store) : Prop := {
  entry_key : ∀ v e, pending s !! v = Some e → vulnId e = v;
  entry_waiting : ∀ v e, pending s !! v = Some e → promises s !! promise e = Some None;
  entry_timer : ∀ v e, pending s !! v = Some e →
    ∃ tm, timers s !! timeoutId e = Some tm ∧ t_vulnId tm = v
          ∧ t_promise tm = promise e ∧ t_cveId tm = p_cveId e;
  entry_promise_inj : ∀ v1 v2 e1 e2,
    pending s !! v1 = Some e1 → pending s !! v2 = Some e2 →
    promise e1 = promise e2 → v1 = v2;
  timer_entry : ∀ t tm, timers s !! t = Some tm →
    ∃ e, pending s !! t_vulnId tm = Some e ∧ timeoutId e = t;
  promise_bound : ∀ p, is_Some (promises s !! p) → p < nextPromise s;
  timer_bound : ∀ t, is_Some (timers s !! t) → t < nextTimer s;
  completed_once : NoDup (completions (trace s));
  completed_settled : ∀ p, p ∈ completions (trace s) →
    ∃ o, promises s !! p = Some (Some o);
}.

End PendingRebuilds.

(** ** JavaScript strings, as far as the stages use them

    Strings are sequences of bytes here; the helpers agree with their
    JavaScript namesakes on ASCII text. *)

Module Js.

Definition nl : string := String (ascii_of_nat 10) EmptyString.
Definition dq : string := String (ascii_of_nat 34) EmptyString.

Definition map_chars (f : ascii → ascii) (s : string) : string :=
  string_of_list_ascii (f <$> list_ascii_of_string s).

Definition between (lo hi : nat) (c : ascii) : bool :=
  Nat.leb lo (nat_of_ascii c) && Nat.leb (nat_of_ascii c) hi.

Definition lower_char (c : ascii) : ascii :=
  if between 65 90 c then ascii_of_nat (nat_of_ascii c + 32) else c.

Definition toLowerCase : string → string := map_chars lower_char.

Definition dash : ascii := ascii_of_nat 45.

(** [.replace(/[^a-z0-9-]/g, "-")] *)
Definition replace_unsafe : string → string :=
  map_chars (λ c, if between 97 122 c || between 48 57 c || between 45 45 c
                  then c else dash).

(** [.replace(/[:.]/g, "-")] *)
Definition replace_colon_dot : string → string :=
  map_chars (λ c, if between 58 58 c || between 46 46 c then dash else c).

(** [s.slice(0, n)] *)
Definition slice0 (n : nat) (s : string) : string := String.substring 0 n s.

(** [s.includes(needle)] *)
Fixpoint includes (needle s : string) : bool :=
  String.prefix needle s ||
  match s with
  | EmptyString => false
  | String _ rest => includes needle rest
  end.

(** [/node_modules|site-packages|vendor/.test(s)] *)
Definition test_vendored (s : string) : bool :=
  includes "node_modules" s || includes "site-packages" s || includes "vendor" s.

(** Truthiness of a string, and of an optional string property. *)
Definition truthy_string (s : string) : bool := negb (String.eqb s EmptyString).

Definition truthy (o : option string) : bool :=
  match o with
  | Some s => truthy_string s
  | None => false
  end.

(** [x || undefined] *)
Definition or_undefined (s : string) : option string :=
  if truthy_string s then Some s else None.

(** An optional string inside a template literal. *)
Definition render (o : option string) : string := default "undefined" o.

End Js.

(** ** The state of a remediation ([agents/state.ts]) *)

Record StepLogEntry := {
  timestamp : string;
  node : string;
  message : string;
  entry_status : StepStatus;
}.

Record StoredFix := {
  sf_id : string;
  sf_cveId : string;
  sf_category : VulnCategory;
  sf_packageName : string;
  sf_fixDescription : string;
  sf_fixSteps : string;
  sf_patchContent : option string;
  sf_dockerfileChanges : option string;
  sf_prUrl : option string;
  sf_tagName : option string;
  sf_resolvedAt : string;
}.

Record RemediationState := {
  vulnerability : Vulnerability;
  category : option VulnCategory;
  classificationReason : string;
  rebuildWouldFix : option bool;
  rebuildCheckReason : string;
  ragResults : list StoredFix;
  ragFixApplicable : bool;
  proposedFix : string;
  fixSteps : string;
  patchContent : string;
  dockerfileChanges : string;
  prUrl : string;
  tagName : string;
  workflowRunUrl : string;
  rebuildVerified : bool;
  rebuildSuccessful : bool;
  rebuildScanResult : option RebuildScanResult;
  status : RemediationStatus;
  stepLog : list StepLogEntry;
  error : string;
}.

(** One key of the object a stage returns, with its value. A stage returns a
    [Partial<RemediationStateType>]: the assignments of its object literal. *)
Inductive Assign :=
  | set_vulnerability (v : Vulnerability)
  | set_category (v : option VulnCategory)
  | set_classificationReason (v : string)
  | set_rebuildWouldFix (v : option bool)
  | set_rebuildCheckReason (v : string)
  | set_ragResults (v : list StoredFix)
  | set_ragFixApplicable (v : bool)
  | set_proposedFix (v : string)
  | set_fixSteps (v : string)
  | set_patchContent (v : string)
  | set_dockerfileChanges (v : string)
  | set_prUrl (v : string)
  | set_tagName (v : string)
  | set_workflowRunUrl (v : string)
  | set_rebuildVerified (v : bool)
  | set_rebuildSuccessful (v : bool)
  | set_rebuildScanResult (v : option RebuildScanResult)
  | set_status (v : RemediationStatus)
  | set_stepLog (v : list StepLogEntry)
  | set_error (v : string).

Definition Update : Type := list Assign.

Inductive Key :=
  | k_vulnerability | k_category | k_classificationReason | k_rebuildWouldFix
  | k_rebuildCheckReason | k_ragResults | k_ragFixApplicable | k_proposedFix
  | k_fixSteps | k_patchContent | k_dockerfileChanges | k_prUrl | k_tagName
  | k_workflowRunUrl | k_rebuildVerified | k_rebuildSuccessful
  | k_rebuildScanResult | k_status | k_stepLog | k_error.

#[global] Instance Key_eq_dec : EqDecision Key.
Proof. solve_decision. Defined.

Definition key_of (a : Assign) : Key :=
  match a with
  | set_vulnerability _ => k_vulnerability
  | set_category _ => k_category
  | set_classificationReason _ => k_classificationReason
  | set_rebuildWouldFix _ => k_rebuildWouldFix
  | set_rebuildCheckReason _ => k_rebuildCheckReason
  | set_ragResults _ => k_ragResults
  | set_ragFixApplicable _ => k_ragFixApplicable
  | set_proposedFix _ => k_proposedFix
  | set_fixSteps _ => k_fixSteps
  | set_patchContent _ => k_patchContent
  | set_dockerfileChanges _ => k_dockerfileChanges
  | set_prUrl _ => k_prUrl
  | set_tagName _ => k_tagName
  | set_workflowRunUrl _ => k_workflowRunUrl
  | set_rebuildVerified _ => k_rebuildVerified
  | set_rebuildSuccessful _ => k_rebuildSuccessful
  | set_rebuildScanResult _ => k_rebuildScanResult
  | set_status _ => k_status
  | set_stepLog _ => k_stepLog
  | set_error _ => k_error
  end.

(** The reducers of [RemediationStateAnnotation]: [stepLog] appends, every
    other channel takes the latest value. *)
Definition reducer_latest {A : Type} (_ next : A) : A := next.

Definition reducer_append {A : Type} (prev next : list A) : list A := prev ++ next.

(** Writing one channel of the state. *)
Section channels.
Context (s : RemediationState).

Definition with_vulnerability (x : Vulnerability) : RemediationState :=
  Build_RemediationState x (category s) (classificationReason s)
    (rebuildWouldFix s) (rebuildCheckReason s) (ragResults s)
    (ragFixApplicable s) (proposedFix s) (fixSteps s) (patchContent s)
    (dockerfileChanges s) (prUrl s) (tagName s) (workflowRunUrl s)
    (rebuildVerified s) (rebuildSuccessful s) (rebuildScanResult s)
    (status s) (stepLog s) (error s).

Definition with_category (x : option VulnCategory) : RemediationState :=
  Build_RemediationState (vulnerability s) x (classificationReason s)
    (rebuildWouldFix s) (rebuildCheckReason s) (ragResults s)
    (ragFixApplicable s) (proposedFix s) (fixSteps s) (patchContent s)
    (dockerfileChanges s) (prUrl s) (tagName s) (workflowRunUrl s)
    (rebuildVerified s) (rebuildSuccessful s) (rebuildScanResult s)
    (status s) (stepLog s) (error s).

Definition with_classificationReason (x : string) : RemediationState :=
  Build_RemediationState (vulnerability s) (category s) x (rebuildWouldFix
    s) (rebuildCheckReason s) (ragResults s) (ragFixApplicable s)
    (proposedFix s) (fixSteps s) (patchContent s) (dockerfileChanges s)
    (prUrl s) (tagName s) (workflowRunUrl s) (rebuildVerified s)
    (rebuildSuccessful s) (rebuildScanResult s) (status s) (stepLog s)
    (error s).

Definition with_rebuildWouldFix (x : option bool) : RemediationState :=
  Build_RemediationState (vulnerability s) (category s)
    (classificationReason s) x (rebuildCheckReason s) (ragResults s)
    (ragFixApplicable s) (proposedFix s) (fixSteps s) (patchContent s)
    (dockerfileChanges s) (prUrl s) (tagName s) (workflowRunUrl s)
    (rebuildVerified s) (rebuildSuccessful s) (rebuildScanResult s)
    (status s) (stepLog s) (error s).

Definition with_rebuildCheckReason (x : string) : RemediationState :=
  Build_RemediationState (vulnerability s) (category s)
    (classificationReason s) (rebuildWouldFix s) x (ragResults s)
    (ragFixApplicable s) (proposedFix s) (fixSteps s) (patchContent s)
    (dockerfileChanges s) (prUrl s) (tagName s) (workflowRunUrl s)
    (rebuildVerified s) (rebuildSuccessful s) (rebuildScanResult s)
    (status s) (stepLog s) (error s).

Definition with_ragResults (x : list StoredFix) : RemediationState :=
  Build_RemediationState (vulnerability s) (category s)
    (classificationReason s) (rebuildWouldFix s) (rebuildCheckReason s) x
    (ragFixApplicable s) (proposedFix s) (fixSteps s) (patchContent s)
    (dockerfileChanges s) (prUrl s) (tagName s) (workflowRunUrl s)
    (rebuildVerified s) (rebuildSuccessful s) (rebuildScanResult s)
    (status s) (stepLog s) (error s).

Definition with_ragFixApplicable (x : bool) : RemediationState :=
  Build_RemediationState (vulnerability s) (category s)
    (classificationReason s) (rebuildWouldFix s) (rebuildCheckReason s)
    (ragResults s) x (proposedFix s) (fixSteps s) (patchContent s)
    (dockerfileChanges s) (prUrl s) (tagName s) (workflowRunUrl s)
    (rebuildVerified s) (rebuildSuccessful s) (rebuildScanResult s)
    (status s) (stepLog s) (error s).

Definition with_proposedFix (x : string) : RemediationState :=
  Build_RemediationState (vulnerability s) (category s)
    (classificationReason s) (rebuildWouldFix s) (rebuildCheckReason s)
    (ragResults s) (ragFixApplicable s) x (fixSteps s) (patchContent s)
    (dockerfileChanges s) (prUrl s) (tagName s) (workflowRunUrl s)
    (rebuildVerified s) (rebuildSuccessful s) (rebuildScanResult s)
    (status s) (stepLog s) (error s).

Definition with_fixSteps (x : string) : RemediationState :=
  Build_RemediationState (vulnerability s) (category s)
    (classificationReason s) (rebuildWouldFix s) (rebuildCheckReason s)
    (ragResults s) (ragFixApplicable s) (proposedFix s) x (patchContent s)
    (dockerfileChanges s) (prUrl s) (tagName s) (workflowRunUrl s)
    (rebuildVerified s) (rebuildSuccessful s) (rebuildScanResult s)
    (status s) (stepLog s) (error s).

Definition with_patchContent (x : string) : RemediationState :=
  Build_RemediationState (vulnerability s) (category s)
    (classificationReason s) (rebuildWouldFix s) (rebuildCheckReason s)
    (ragResults s) (ragFixApplicable s) (proposedFix s) (fixSteps s) x
    (dockerfileChanges s) (prUrl s) (tagName s) (workflowRunUrl s)
    (rebuildVerified s) (rebuildSuccessful s) (rebuildScanResult s)
    (status s) (stepLog s) (error s).

Definition with_dockerfileChanges (x : string) : RemediationState :=
  Build_RemediationState (vulnerability s) (category s)
    (classificationReason s) (rebuildWouldFix s) (rebuildCheckReason s)
    (ragResults s) (ragFixApplicable s) (proposedFix s) (fixSteps s)
    (patchContent s) x (prUrl s) (tagName s) (workflowRunUrl s)
    (rebuildVerified s) (rebuildSuccessful s) (rebuildScanResult s)
    (status s) (stepLog s) (error s).

Definition with_prUrl (x : string) : RemediationState :=
  Build_RemediationState (vulnerability s) (category s)
    (classificationReason s) (rebuildWouldFix s) (rebuildCheckReason s)
    (ragResults s) (ragFixApplicable s) (proposedFix s) (fixSteps s)
    (patchContent s) (dockerfileChanges s) x (tagName s) (workflowRunUrl
    s) (rebuildVerified s) (rebuildSuccessful s) (rebuildScanResult s)
    (status s) (stepLog s) (error s).

Definition with_tagName (x : string) : RemediationState :=
  Build_RemediationState (vulnerability s) (category s)
    (classificationReason s) (rebuildWouldFix s) (rebuildCheckReason s)
    (ragResults s) (ragFixApplicable s) (proposedFix s) (fixSteps s)
    (patchContent s) (dockerfileChanges s) (prUrl s) x (workflowRunUrl s)
    (rebuildVerified s) (rebuildSuccessful s) (rebuildScanResult s)
    (status s) (stepLog s) (error s).

Definition with_workflowRunUrl (x : string) : RemediationState :=
  Build_RemediationState (vulnerability s) (category s)
    (classificationReason s) (rebuildWouldFix s) (rebuildCheckReason s)
    (ragResults s) (ragFixApplicable s) (proposedFix s) (fixSteps s)
    (patchContent s) (dockerfileChanges s) (prUrl s) (tagName s) x
    (rebuildVerified s) (rebuildSuccessful s) (rebuildScanResult s)
    (status s) (stepLog s) (error s).

Definition with_rebuildVerified (x : bool) : RemediationState :=
  Build_RemediationState (vulnerability s) (category s)
    (classificationReason s) (rebuildWouldFix s) (rebuildCheckReason s)
    (ragResults s) (ragFixApplicable s) (proposedFix s) (fixSteps s)
    (patchContent s) (dockerfileChanges s) (prUrl s) (tagName s)
    (workflowRunUrl s) x (rebuildSuccessful s) (rebuildScanResult s)
    (status s) (stepLog s) (error s).

Definition with_rebuildSuccessful (x : bool) : RemediationState :=
  Build_RemediationState (vulnerability s) (category s)
    (classificationReason s) (rebuildWouldFix s) (rebuildCheckReason s)
    (ragResults s) (ragFixApplicable s) (proposedFix s) (fixSteps s)
    (patchContent s) (dockerfileChanges s) (prUrl s) (tagName s)
    (workflowRunUrl s) (rebuildVerified s) x (rebuildScanResult s) (status
    s) (stepLog s) (error s).

Definition with_rebuildScanResult (x : option RebuildScanResult) : RemediationState :=
  Build_RemediationState (vulnerability s) (category s)
    (classificationReason s) (rebuildWouldFix s) (rebuildCheckReason s)
    (ragResults s) (ragFixApplicable s) (proposedFix s) (fixSteps s)
    (patchContent s) (dockerfileChanges s) (prUrl s) (tagName s)
    (workflowRunUrl s) (rebuildVerified s) (rebuildSuccessful s) x (status
    s) (stepLog s) (error s).

Definition with_status (x : RemediationStatus) : RemediationState :=
  Build_RemediationState (vulnerability s) (category s)
    (classificationReason s) (rebuildWouldFix s) (rebuildCheckReason s)
    (ragResults s) (ragFixApplicable s) (proposedFix s) (fixSteps s)
    (patchContent s) (dockerfileChanges s) (prUrl s) (tagName s)
    (workflowRunUrl s) (rebuildVerified s) (rebuildSuccessful s)
    (rebuildScanResult s) x (stepLog s) (error s).

Definition with_stepLog (x : list StepLogEntry) : RemediationState :=
  Build_RemediationState (vulnerability s) (category s)
    (classificationReason s) (rebuildWouldFix s) (rebuildCheckReason s)
    (ragResults s) (ragFixApplicable s) (proposedFix s) (fixSteps s)
    (patchContent s) (dockerfileChanges s) (prUrl s) (tagName s)
    (workflowRunUrl s) (rebuildVerified s) (rebuildSuccessful s)
    (rebuildScanResult s) (status s) x (error s).

Definition with_error (x : string) : RemediationState :=
  Build_RemediationState (vulnerability s) (category s)
    (classificationReason s) (rebuildWouldFix s) (rebuildCheckReason s)
    (ragResults s) (ragFixApplicable s) (proposedFix s) (fixSteps s)
    (patchContent s) (dockerfileChanges s) (prUrl s) (tagName s)
    (workflowRunUrl s) (rebuildVerified s) (rebuildSuccessful s)
    (rebuildScanResult s) (status s) (stepLog s) x.

End channels.


(** The runtime merges an update into the state channel by channel, each
    through its reducer. *)
Definition apply_assign (s : RemediationState) (a : Assign) : RemediationState :=
  match a with
  | set_vulnerability v => with_vulnerability s (reducer_latest (vulnerability s) v)
  | set_category v => with_category s (reducer_latest (category s) v)
  | set_classificationReason v => with_classificationReason s (reducer_latest (classificationReason s) v)
  | set_rebuildWouldFix v => with_rebuildWouldFix s (reducer_latest (rebuildWouldFix s) v)
  | set_rebuildCheckReason v => with_rebuildCheckReason s (reducer_latest (rebuildCheckReason s) v)
  | set_ragResults v => with_ragResults s (reducer_latest (ragResults s) v)
  | set_ragFixApplicable v => with_ragFixApplicable s (reducer_latest (ragFixApplicable s) v)
  | set_proposedFix v => with_proposedFix s (reducer_latest (proposedFix s) v)
  | set_fixSteps v => with_fixSteps s (reducer_latest (fixSteps s) v)
  | set_patchContent v => with_patchContent s (reducer_latest (patchContent s) v)
  | set_dockerfileChanges v => with_dockerfileChanges s (reducer_latest (dockerfileChanges s) v)
  | set_prUrl v => with_prUrl s (reducer_latest (prUrl s) v)
  | set_tagName v => with_tagName s (reducer_latest (tagName s) v)
  | set_workflowRunUrl v => with_workflowRunUrl s (reducer_latest (workflowRunUrl s) v)
  | set_rebuildVerified v => with_rebuildVerified s (reducer_latest (rebuildVerified s) v)
  | set_rebuildSuccessful v => with_rebuildSuccessful s (reducer_latest (rebuildSuccessful s) v)
  | set_rebuildScanResult v => with_rebuildScanResult s (reducer_latest (rebuildScanResult s) v)
  | set_status v => with_status s (reducer_latest (status s) v)
  | set_stepLog v => with_stepLog s (reducer_append (stepLog s) v)
  | set_error v => with_error s (reducer_latest (error s) v)
  end.

Definition applyUpdate (s : RemediationState) (u : Update) : RemediationState :=
  foldl apply_assign s u.

(** The defaults of the channels, with the input [{ vulnerability: vuln }]
    merged in. *)
Definition initial_state (vuln : Vulnerability) : RemediationState :=
  {| vulnerability := vuln; category := None; classificationReason := EmptyString;
     rebuildWouldFix := None; rebuildCheckReason := EmptyString;
     ragResults := []; ragFixApplicable := false; proposedFix := EmptyString;
     fixSteps := EmptyString; patchContent := EmptyString;
     dockerfileChanges := EmptyString; prUrl := EmptyString;
     tagName := EmptyString; workflowRunUrl := EmptyString;
     rebuildVerified := false; rebuildSuccessful := false;
     rebuildScanResult := None; status := pending_status; stepLog := [];
     error := EmptyString |}.

(** ** The world outside the workflow

    What the stages change outside of the state they return: documents written
    to the fix index, pull requests, tags and workflow dispatches on GitHub,
    the pending-rebuild store, and how often the clock and the id generator
    were read. *)

Record CreatePullRequestParams := {
  pr_cveId : string;
  branchName : string;
  title : string;
  body : string;
  files : list (string * string);
  pr_repoOwner : option string;
  pr_repoName : option string;
}.

Record CreatePullRequestResult := { r_prUrl : string; prNumber : nat }.

(** The object handed to [createApprovalTagWorkflow]. The dispatch reads
    [params.vulnId] and [params.callbackUrl] although the interface does not
    declare them, so each property may be missing. *)
Record CreateApprovalTagWorkflowParams := {
  tw_tagName : string;
  tw_cveId : string;
  tw_message : string;
  tw_imageName : option string;
  tw_repoOwner : option string;
  tw_repoName : option string;
  tw_vulnId : option string;
  tw_callbackUrl : option string;
}.

Record CreateApprovalTagWorkflowResult := {
  res_tagName : string;
  tagUrl : string;
  res_workflowRunUrl : string;
  requiresApproval : bool;
}.

(** The [inputs] of the dispatch of [rebuild-image.yml]. *)
Record DispatchInputs := {
  tag : string;
  cve_id : string;
  vuln_id : option string;
  callback_url : option string;
  image_name : option string;
}.

Record WorkflowDispatch := {
  workflow_id : string;
  ref : string;
  inputs : DispatchInputs;
}.

Record World := {
  tick : nat;
  uuids : nat;
  fixIndex : list StoredFix;
  pullRequests : list CreatePullRequestParams;
  tags : list string;
  dispatches : list WorkflowDispatch;
  rebuilds : PendingRebuilds.Store;
}.

Definition new_world : World :=
  {| tick := 0; uuids := 0; fixIndex := []; pullRequests := []; tags := [];
     dispatches := []; rebuilds := PendingRebuilds.empty_store |}.

(** A call returns or throws. *)
Inductive Outcome (A : Type) :=
  | Returns (a : A)
  | Throws (err : string).
Arguments Returns {A} a.
Arguments Throws {A} err.

(** What [JSON.parse] and the property reads after it make of the text of a
    reply: [Unparseable] when the [try] block throws. *)
Inductive Parsed (A : Type) :=
  | ParsedAs (a : A)
  | Unparseable.
Arguments ParsedAs {A} a.
Arguments Unparseable {A}.

(** A reply of the language model: [response.content] when it is a string, and
    the reading of that text as JSON. *)
Record LlmReply (A : Type) := {
  content : option string;
  parsed : Parsed A;
}.
Arguments content {A} _.
Arguments parsed {A} _.

(** [parsed.category] when it is a string; [parsed.reason] unless it is null or
    undefined. *)
Record ClassifyAnswer := {
  a_category : option string;
  a_reason : option string;
}.

(** [parsed.rebuildWouldFix === true]; [parsed.reason]. *)
Record RebuildAnswer := {
  a_rebuildWouldFix : bool;
  a_rebuildReason : option string;
}.

Record ResearchAnswer := {
  a_fixDescription : option string;
  a_fixSteps : option string;
  a_patchContent : option string;
  a_dockerfileChanges : option string;
}.

(** The answers of the services the stages consult. *)
Record Collaborators := {
  clock : nat → Instant;
  uuidv4 : nat → string;
  llm_classify : Vulnerability → Outcome (LlmReply ClassifyAnswer);
  llm_rebuild : Vulnerability → Outcome (LlmReply RebuildAnswer);
  llm_research : RemediationState → Outcome (LlmReply ResearchAnswer);
  search_index : string → Outcome (list StoredFix);
  upload_fix : StoredFix → Outcome unit;
  github_pull_request : CreatePullRequestParams → Outcome CreatePullRequestResult;
  github_tag : CreateApprovalTagWorkflowParams → Outcome string;
  github_dispatch : WorkflowDispatch → Outcome unit;
}.

(** Stages run in a state-and-exception monad over the world. *)
Definition M (A : Type) : Type := World → Outcome A * World.

Definition ret {A : Type} (a : A) : M A := λ w, (Returns a, w).

Definition throw {A : Type} (err : string) : M A := λ w, (Throws err, w).

Definition bind {A B : Type} (m : M A) (k : A → M B) : M B :=
  λ w, match m w with
       | (Returns a, w') => k a w'
       | (Throws err, w') => (Throws err, w')
       end.

Definition try_catch {A : Type} (m : M A) (handler : string → M A) : M A :=
  λ w, match m w with
       | (Returns a, w') => (Returns a, w')
       | (Throws err, w') => handler err w'
       end.

Definition lift {A : Type} (o : Outcome A) : M A := λ w, (o, w).

Declare Scope stage_scope.
Delimit Scope stage_scope with stage.
Notation "'let*' x ':=' m 'in' k" := (bind m (λ x, k))
  (at level 10, x name, m at level 100, k at level 200) : stage_scope.
Local Open Scope stage_scope.

Section world_access.
Context (w : World).

Definition with_tick (x : nat) : World :=
  Build_World x (uuids w) (fixIndex w) (pullRequests w) (tags w) (dispatches w)
    (rebuilds w).

Definition with_uuids (x : nat) : World :=
  Build_World (tick w) x (fixIndex w) (pullRequests w) (tags w) (dispatches w)
    (rebuilds w).

Definition with_fixIndex (x : list StoredFix) : World :=
  Build_World (tick w) (uuids w) x (pullRequests w) (tags w) (dispatches w)
    (rebuilds w).

Definition with_pullRequests (x : list CreatePullRequestParams) : World :=
  Build_World (tick w) (uuids w) (fixIndex w) x (tags w) (dispatches w)
    (rebuilds w).

Definition with_tags (x : list string) : World :=
  Build_World (tick w) (uuids w) (fixIndex w) (pullRequests w) x (dispatches w)
    (rebuilds w).

Definition with_dispatches (x : list WorkflowDispatch) : World :=
  Build_World (tick w) (uuids w) (fixIndex w) (pullRequests w) (tags w) x
    (rebuilds w).

End world_access.

(** ** Services ([services/azureSearch.ts], [tools/githubTools.ts]) *)

Section services.
Context (E : Collaborators).

(** [new Date()] *)
Definition new_Date : M Instant :=
  λ w, (Returns (clock E (tick w)), with_tick w (S (tick w))).

Definition fresh_uuid : M string :=
  λ w, (Returns (uuidv4 E (uuids w)), with_uuids w (S (uuids w))).

(** [search_index] answers the documents of the five best matches whose score
    is above 0.5. *)
Definition searchFixes (cve package : string) : M (list StoredFix) :=
  lift (search_index E (cve +:+ " " +:+ package)).

Definition storeFix (fix_ : StoredFix) : M unit :=
  λ w, match upload_fix E fix_ with
       | Returns _ => (Returns (), with_fixIndex w (fixIndex w ++ [fix_]))
       | Throws err => (Throws err, w)
       end.

(** The eight calls of [createPullRequest] are one request here. *)
Definition createPullRequest (params : CreatePullRequestParams)
    : M CreatePullRequestResult :=
  λ w, match github_pull_request E params with
       | Returns r => (Returns r, with_pullRequests w (pullRequests w ++ [params]))
       | Throws err => (Throws err, w)
       end.

(** Steps 1 to 3 of [createApprovalTagWorkflow]: read the default branch and
    its head, create the annotated tag and its reference. The answer is the
    default branch. *)
Definition create_tag (params : CreateApprovalTagWorkflowParams) : M string :=
  λ w, match github_tag E params with
       | Returns branch => (Returns branch, with_tags w (tags w ++ [tw_tagName params]))
       | Throws err => (Throws err, w)
       end.

Definition createWorkflowDispatch (d : WorkflowDispatch) : M unit :=
  λ w, match github_dispatch E d with
       | Returns _ => (Returns (), with_dispatches w (dispatches w ++ [d]))
       | Throws err => (Throws err, w)
       end.

Definition dispatch_inputs (params : CreateApprovalTagWorkflowParams)
    : DispatchInputs :=
  {| tag := tw_tagName params;
     cve_id := tw_cveId params;
     vuln_id := tw_vulnId params;
     callback_url := tw_callbackUrl params;
     image_name := if Js.truthy (tw_imageName params) then tw_imageName params
                   else None |}.

Definition createApprovalTagWorkflow (params : CreateApprovalTagWorkflowParams)
    : M CreateApprovalTagWorkflowResult :=
  let* defaultBranch := create_tag params in
  let* _ :=
    try_catch
      (createWorkflowDispatch
         {| workflow_id := "rebuild-image.yml"; ref := defaultBranch;
            inputs := dispatch_inputs params |})
      (λ _, ret ()) in
  let repo := "https://github.com/" +:+ Js.render (tw_repoOwner params) +:+ "/"
                +:+ Js.render (tw_repoName params) in
  ret {| res_tagName := tw_tagName params;
         tagUrl := repo +:+ "/releases/tag/" +:+ tw_tagName params;
         res_workflowRunUrl := repo +:+ "/actions";
         requiresApproval := true |}.

End services.

(** ** The stages ([agents/agentNodes.ts]) *)

Section stages.
Context (E : Collaborators).

Definition logEntry (node_ message_ : string) (status_ : StepStatus)
    : M StepLogEntry :=
  let* now := new_Date E in
  ret {| timestamp := iso now; node := node_; message := message_;
         entry_status := status_ |}.

Definition category_name (c : VulnCategory) : string :=
  match c with
  | container => "container"
  | code => "code"
  end.

(** The text a reply is parsed from is [response.content] when that is a
    string and the empty string otherwise, which [JSON.parse] rejects. *)
Definition parse_reply {A : Type} (reply : LlmReply A) : Parsed A :=
  match content reply with
  | Some _ => parsed reply
  | None => Unparseable
  end.

Definition reply_text {A : Type} (reply : LlmReply A) : string :=
  default EmptyString (content reply).

(** The fallback heuristics of [classifyVuln]. *)
Definition isOsPkg (vuln : Vulnerability) : bool :=
  String.eqb (source vuln) "trivy"
  && negb (Js.truthy (filePath vuln))
  && Js.truthy (imageName vuln)
  && negb (Js.test_vendored (default EmptyString (filePath vuln))).

Definition classify_fallback (vuln : Vulnerability) : VulnCategory * string :=
  (if isOsPkg vuln then container else code,
   "Fallback heuristic: " +:+
     (if isOsPkg vuln then "OS-level package in image" else "application dependency")).

Definition classify_reply (vuln : Vulnerability) (reply : LlmReply ClassifyAnswer)
    : VulnCategory * string :=
  match parse_reply reply with
  | ParsedAs a =>
      (if decide (a_category a = Some "container") then container else code,
       default EmptyString (a_reason a))
  | Unparseable => classify_fallback vuln
  end.

Definition classifyVuln (state : RemediationState) : M Update :=
  let vuln := vulnerability state in
  let* response := lift (llm_classify E vuln) in
  let '(category_, reason) := classify_reply vuln response in
  let* entry :=
    logEntry "classifyVuln"
      ("Classified as " +:+ category_name category_ +:+ ": " +:+ reason)
      step_completed in
  ret [set_category (Some category_); set_classificationReason reason;
       set_status classifying; set_stepLog [entry]].

Definition rebuild_reply (reply : LlmReply RebuildAnswer) : bool * string :=
  match parse_reply reply with
  | ParsedAs a => (a_rebuildWouldFix a, default EmptyString (a_rebuildReason a))
  | Unparseable => (false, "Could not determine — proceeding with research.")
  end.

Definition tryRebuild (state : RemediationState) : M Update :=
  let vuln := vulnerability state in
  let* response := lift (llm_rebuild E vuln) in
  let '(rebuildWouldFix_, reason) := rebuild_reply response in
  let* entry :=
    logEntry "tryRebuild"
      (if rebuildWouldFix_ then "Rebuild would fix: " +:+ reason
       else "Rebuild insufficient: " +:+ reason)
      step_completed in
  ret [set_rebuildWouldFix (Some rebuildWouldFix_); set_rebuildCheckReason reason;
       set_status rebuilding; set_stepLog [entry]].

Definition searchRAG (state : RemediationState) : M Update :=
  let vuln := vulnerability state in
  let* found :=
    try_catch
      (let* results := searchFixes E (cveId vuln) (packageName vuln) in
       ret (results, bool_decide (0 < length results)))
      (λ _, ret ([], false)) in
  let '(ragResults_, ragFixApplicable_) := found in
  let* entry :=
    logEntry "searchRAG"
      (if ragFixApplicable_ : bool
       then "Found " +:+ pretty (length ragResults_) +:+ " known fix(es) in RAG database."
       else "No known fixes found in RAG database.")
      step_completed in
  ret [set_ragResults ragResults_; set_ragFixApplicable ragFixApplicable_;
       set_status searching_rag; set_stepLog [entry]].

Record ProposedFix := {
  pf_proposedFix : string;
  pf_fixSteps : string;
  pf_patchContent : string;
  pf_dockerfileChanges : string;
}.

Definition research_reply (reply : LlmReply ResearchAnswer) : ProposedFix :=
  match parse_reply reply with
  | ParsedAs a =>
      {| pf_proposedFix := default EmptyString (a_fixDescription a);
         pf_fixSteps := default EmptyString (a_fixSteps a);
         pf_patchContent := default EmptyString (a_patchContent a);
         pf_dockerfileChanges := default EmptyString (a_dockerfileChanges a) |}
  | Unparseable =>
      {| pf_proposedFix := reply_text reply;
         pf_fixSteps := "Manual review needed — LLM response was not structured.";
         pf_patchContent := EmptyString;
         pf_dockerfileChanges := EmptyString |}
  end.

Definition researchFix (state : RemediationState) : M Update :=
  let* response := lift (llm_research E state) in
  let fix_ := research_reply response in
  let* entry :=
    logEntry "researchFix"
      ("Fix researched: " +:+ Js.slice0 120 (pf_proposedFix fix_) +:+ "...")
      step_completed in
  ret [set_proposedFix (pf_proposedFix fix_); set_fixSteps (pf_fixSteps fix_);
       set_patchContent (pf_patchContent fix_);
       set_dockerfileChanges (pf_dockerfileChanges fix_);
       set_status researching; set_stepLog [entry]].

Definition severity_name (s : Severity) : string :=
  match s with
  | critical => "critical"
  | high => "high"
  | medium => "medium"
  | low => "low"
  end.

Definition pr_body (state : RemediationState) : string :=
  let vuln := vulnerability state in
  "## Vulnerability Remediation" +:+ Js.nl +:+ Js.nl
  +:+ "**CVE:** " +:+ cveId vuln +:+ Js.nl
  +:+ "**Package:** " +:+ packageName vuln +:+ " " +:+ currentVersion vuln
  +:+ " → " +:+ default "patched" (fixedVersion vuln) +:+ Js.nl
  +:+ "**Severity:** " +:+ severity_name (severity vuln) +:+ Js.nl +:+ Js.nl
  +:+ "### Fix Description" +:+ Js.nl +:+ proposedFix state +:+ Js.nl +:+ Js.nl
  +:+ "### Steps" +:+ Js.nl +:+ fixSteps state +:+ Js.nl +:+ Js.nl
  +:+ "---" +:+ Js.nl +:+ "*Auto-generated by Vulnerability Remediation Agent*".

Definition pr_files (state : RemediationState) : list (string * string) :=
  if Js.truthy_string (patchContent state)
  then [(default "package.json" (filePath (vulnerability state)), patchContent state)]
  else [].

Definition createPRNode (state : RemediationState) : M Update :=
  let vuln := vulnerability state in
  let branchName_ := "fix/" +:+ Js.replace_unsafe (Js.toLowerCase (cveId vuln)) in
  let files_ := pr_files state in
  if decide (length files_ = 0) then
    let* entry := logEntry "createPR" "No patch content to commit." step_failed in
    ret [set_status failed;
         set_error "No patch content generated — cannot create PR.";
         set_stepLog [entry]]
  else
    try_catch
      (let* pr :=
         createPullRequest E
           {| pr_cveId := cveId vuln; branchName := branchName_;
              title := "fix: remediate " +:+ cveId vuln +:+ " in " +:+ packageName vuln;
              body := pr_body state; files := files_;
              pr_repoOwner := None; pr_repoName := None |} in
       let* entry :=
         logEntry "createPR" ("PR created: " +:+ r_prUrl pr) step_completed in
       ret [set_prUrl (r_prUrl pr); set_status creating_pr; set_stepLog [entry]])
      (λ err,
       let* entry :=
         logEntry "createPR" ("PR creation failed: " +:+ err) step_failed in
       ret [set_status failed; set_error ("Failed to create PR: " +:+ err);
            set_stepLog [entry]]).

End stages.

Section terminal_stages.
Context (E : Collaborators).

Definition tag_name (vuln : Vulnerability) (now : Instant) : string :=
  let timestamp_ := Js.slice0 19 (Js.replace_colon_dot (iso now)) in
  "rebuild/" +:+ Js.replace_unsafe (Js.toLowerCase (cveId vuln)) +:+ "-" +:+ timestamp_.

(** The object literal [createTagWorkflowNode] passes to the tool: four
    properties, the others stay undefined. *)
Definition tag_workflow_params (state : RemediationState) (tagName_ : string)
    : CreateApprovalTagWorkflowParams :=
  let vuln := vulnerability state in
  {| tw_tagName := tagName_;
     tw_cveId := cveId vuln;
     tw_message := "Container rebuild for " +:+ cveId vuln +:+ Js.nl +:+ Js.nl
                     +:+ proposedFix state;
     tw_imageName := imageName vuln;
     tw_repoOwner := None;
     tw_repoName := None;
     tw_vulnId := None;
     tw_callbackUrl := None |}.

Definition createTagWorkflowNode (state : RemediationState) : M Update :=
  let vuln := vulnerability state in
  let* now := new_Date E in
  let tagName_ := tag_name vuln now in
  try_catch
    (let* result := createApprovalTagWorkflow E (tag_workflow_params state tagName_) in
     let* entry :=
       logEntry E "createTagWorkflow"
         ("Tag " +:+ Js.dq +:+ res_tagName result +:+ Js.dq
          +:+ " created. Workflow triggered — awaiting user approval at "
          +:+ res_workflowRunUrl result)
         step_completed in
     ret [set_tagName (res_tagName result);
          set_workflowRunUrl (res_workflowRunUrl result);
          set_status awaiting_approval; set_stepLog [entry]])
    (λ err,
     let* entry :=
       logEntry E "createTagWorkflow" ("Tag creation failed: " +:+ err) step_failed in
     ret [set_status failed; set_error ("Failed to create tag/workflow: " +:+ err);
          set_stepLog [entry]]).

Definition stored_fix (state : RemediationState) (id_ : string) (now : Instant)
    : StoredFix :=
  let vuln := vulnerability state in
  {| sf_id := id_;
     sf_cveId := cveId vuln;
     sf_category := default code (category state);
     sf_packageName := packageName vuln;
     sf_fixDescription := proposedFix state;
     sf_fixSteps := fixSteps state;
     sf_patchContent := Js.or_undefined (patchContent state);
     sf_dockerfileChanges := Js.or_undefined (dockerfileChanges state);
     sf_prUrl := Js.or_undefined (prUrl state);
     sf_tagName := Js.or_undefined (tagName state);
     sf_resolvedAt := iso now |}.

Definition storeInRAG (state : RemediationState) : M Update :=
  let* id_ := fresh_uuid E in
  let* now := new_Date E in
  let fix_ := stored_fix state id_ now in
  try_catch
    (let* _ := storeFix E fix_ in
     let* entry :=
       logEntry E "storeInRAG" "Fix stored in RAG database for future reuse."
         step_completed in
     ret [set_status resolved; set_stepLog [entry]])
    (λ err,
     let* entry :=
       logEntry E "storeInRAG" ("Fix applied but RAG storage failed: " +:+ err)
         step_failed in
     ret [set_status resolved; set_stepLog [entry]]).

(** Modelled from the spec: [verifyRebuildResult], which [agentMap.ts] imports
    from [agentNodes.ts], is not defined in [agentNodes.ts]. The verdict is the
    decision function of the rebuild verification logic: the rebuild is
    successful iff the build succeeded and no residual finding carries the
    target CVE. *)
Definition cve_remains (targetCveId : string) (scan : RebuildScanResult) : bool :=
  existsb (λ f, String.eqb (f_cveId f) targetCveId)
    (vulnerabilities (scanResults scan)).

(** Modelled from the spec: the pure verification function
    [verify(targetCveId, scanResult)], which answers
    [{rebuildVerified: true, rebuildSuccessful}]. *)
Definition verify (targetCveId : string) (scan : RebuildScanResult) : bool * bool :=
  (true, buildSuccess scan && negb (cve_remains targetCveId scan)).

(** Modelled from the spec: the verify stage. With a scan payload it records
    the verdict of [verify]; without one it still runs and reports failure with
    an error. *)
Definition verifyRebuildResult (state : RemediationState) : M Update :=
  let vuln := vulnerability state in
  match rebuildScanResult state with
  | None =>
      let* entry :=
        logEntry E "verifyRebuildResult" "No rebuild scan result received."
          step_failed in
      ret [set_rebuildVerified false; set_rebuildSuccessful false;
           set_status failed;
           set_error "Rebuild verification failed: no scan result received.";
           set_stepLog [entry]]
  | Some scan =>
      let '(verified, successful) := verify (cveId vuln) scan in
      if successful : bool then
        let* entry :=
          logEntry E "verifyRebuildResult"
            ("Rebuild verified: " +:+ cveId vuln +:+ " is no longer present.")
            step_completed in
        ret [set_rebuildVerified verified; set_rebuildSuccessful true;
             set_status verifying_rebuild; set_stepLog [entry]]
      else
        let* entry :=
          logEntry E "verifyRebuildResult"
            ("Rebuild did not fix " +:+ cveId vuln +:+ ".") step_failed in
        ret [set_rebuildVerified verified; set_rebuildSuccessful false;
             set_status failed;
             set_error ("Rebuild did not fix " +:+ cveId vuln +:+ ".");
             set_stepLog [entry]]
  end.

End terminal_stages.

(** ** The graph ([agents/agentMap.ts]) *)

Inductive Node :=
  | n_classifyVuln | n_tryRebuild | n_searchRAG | n_researchFix | n_createPR
  | n_createTagWorkflow | n_verifyRebuildResult | n_storeInRAG.

#[global] Instance Node_eq_dec : EqDecision Node.
Proof. solve_decision. Defined.

(** The conditional edges; each answers the node its label is mapped to. *)
Definition after_classifyVuln (state : RemediationState) : Node :=
  if decide (category state = Some container) then n_tryRebuild else n_searchRAG.

Definition after_tryRebuild (state : RemediationState) : Node :=
  if decide (rebuildWouldFix state = Some true) then n_createTagWorkflow
  else n_searchRAG.

Definition after_searchRAG (state : RemediationState) : Node :=
  let isContainer := bool_decide (category state = Some container) in
  if ragFixApplicable state && isContainer then n_createTagWorkflow
  else if ragFixApplicable state && negb isContainer then n_createPR
  else n_researchFix.

Definition after_researchFix (state : RemediationState) : Node :=
  if decide (category state = Some container) then n_createTagWorkflow
  else n_createPR.

Definition after_verifyRebuildResult (state : RemediationState) : option Node :=
  if rebuildSuccessful state then Some n_storeInRAG else None.

(** The edge leaving a node, on the state after the node's update was merged;
    [None] is [END]. *)
Definition next_node (n : Node) (state : RemediationState) : option Node :=
  match n with
  | n_classifyVuln => Some (after_classifyVuln state)
  | n_tryRebuild => Some (after_tryRebuild state)
  | n_searchRAG => Some (after_searchRAG state)
  | n_researchFix => Some (after_researchFix state)
  | n_createPR => Some n_storeInRAG
  | n_createTagWorkflow => Some n_verifyRebuildResult
  | n_verifyRebuildResult => after_verifyRebuildResult state
  | n_storeInRAG => None
  end.

Section graph.
Context (E : Collaborators).

Definition stage (n : Node) : RemediationState → M Update :=
  match n with
  | n_classifyVuln => classifyVuln E
  | n_tryRebuild => tryRebuild E
  | n_searchRAG => searchRAG E
  | n_researchFix => researchFix E
  | n_createPR => createPRNode E
  | n_createTagWorkflow => createTagWorkflowNode E
  | n_verifyRebuildResult => verifyRebuildResult E
  | n_storeInRAG => storeInRAG E
  end.

(** One superstep: run the node, merge its update. *)
Definition superstep (n : Node) (state : RemediationState) : M RemediationState :=
  let* update := stage n state in
  ret (applyUpdate state update).

(** The driver: supersteps until [END]. [None] when the bound on the number of
    supersteps is reached first. *)
Fixpoint run (fuel : nat) (n : Node) (state : RemediationState)
    : M (option RemediationState) :=
  match fuel with
  | 0 => ret None
  | S fuel' =>
      let* state' := superstep n state in
      match next_node n state' with
      | None => ret (Some state')
      | Some n' => run fuel' n' state'
      end
  end.

(** [graph.invoke({ vulnerability: vuln })]; the runtime bounds a run by its
    recursion limit of 25 supersteps. *)
Definition invoke (vuln : Vulnerability) : M (option RemediationState) :=
  run 25 n_classifyVuln (initial_state vuln).

End graph.

(** The graph has no cycle: every edge leads to a node of lower rank. *)
Definition rank (n : Node) : nat :=
  match n with
  | n_classifyVuln => 7
  | n_tryRebuild => 6
  | n_searchRAG => 5
  | n_researchFix => 4
  | n_createTagWorkflow => 3
  | n_createPR => 2
  | n_verifyRebuildResult => 2
  | n_storeInRAG => 1
  end.

(** The condition under which the fallback of [classifyVuln] answers
    [container]: the scanner is trivy, the image name is a non-empty string and
    the file path is missing or empty. *)
Definition os_package_signal (vuln : Vulnerability) : Prop :=
  source vuln = "trivy"
  ∧ (∃ image, imageName vuln = Some image ∧ image ≠ EmptyString)
  ∧ (filePath vuln = None ∨ filePath vuln = Some EmptyString).

(** A vulnerability of an image reported by another scanner than trivy. *)
Definition grypeImageVuln : Vulnerability :=
  {| id := "vuln-123";
     cveId := "CVE-2024-1234";
     packageName := "openssl";
     currentVersion := "1.1.1";
     fixedVersion := Some "1.1.1w";
     severity := high;
     description := "Buffer overflow in OpenSSL";
     source := "grype";
     imageName := Some "myapp:latest";
     filePath := None;
     createdAt := "2024-02-09T12:00:00.000Z";
     repoOwner := Some "myorg";
     repoName := Some "myapp-repo" |}.

(** ** Reading an update against a state

    [carries a s]: the channel of assignment [a] holds the assigned value in
    [s] (for the step log: the assigned entries are the last ones).
    [same_channel k s s']: the channel [k] is the same in [s] and [s'].
    [appended u]: the step-log entries of update [u]. *)

Definition carries (a : Assign) (s : RemediationState) : Prop :=
  match a with
  | set_vulnerability v => vulnerability s = v
  | set_category v => category s = v
  | set_classificationReason v => classificationReason s = v
  | set_rebuildWouldFix v => rebuildWouldFix s = v
  | set_rebuildCheckReason v => rebuildCheckReason s = v
  | set_ragResults v => ragResults s = v
  | set_ragFixApplicable v => ragFixApplicable s = v
  | set_proposedFix v => proposedFix s = v
  | set_fixSteps v => fixSteps s = v
  | set_patchContent v => patchContent s = v
  | set_dockerfileChanges v => dockerfileChanges s = v
  | set_prUrl v => prUrl s = v
  | set_tagName v => tagName s = v
  | set_workflowRunUrl v => workflowRunUrl s = v
  | set_rebuildVerified v => rebuildVerified s = v
  | set_rebuildSuccessful v => rebuildSuccessful s = v
  | set_rebuildScanResult v => rebuildScanResult s = v
  | set_status v => status s = v
  | set_stepLog v => v `suffix_of` stepLog s
  | set_error v => error s = v
  end.

Definition same_channel (k : Key) (s s' : RemediationState) : Prop :=
  match k with
  | k_vulnerability => vulnerability s = vulnerability s'
  | k_category => category s = category s'
  | k_classificationReason => classificationReason s = classificationReason s'
  | k_rebuildWouldFix => rebuildWouldFix s = rebuildWouldFix s'
  | k_rebuildCheckReason => rebuildCheckReason s = rebuildCheckReason s'
  | k_ragResults => ragResults s = ragResults s'
  | k_ragFixApplicable => ragFixApplicable s = ragFixApplicable s'
  | k_proposedFix => proposedFix s = proposedFix s'
  | k_fixSteps => fixSteps s = fixSteps s'
  | k_patchContent => patchContent s = patchContent s'
  | k_dockerfileChanges => dockerfileChanges s = dockerfileChanges s'
  | k_prUrl => prUrl s = prUrl s'
  | k_tagName => tagName s = tagName s'
  | k_workflowRunUrl => workflowRunUrl s = workflowRunUrl s'
  | k_rebuildVerified => rebuildVerified s = rebuildVerified s'
  | k_rebuildSuccessful => rebuildSuccessful s = rebuildSuccessful s'
  | k_rebuildScanResult => rebuildScanResult s = rebuildScanResult s'
  | k_status => status s = status s'
  | k_stepLog => stepLog s = stepLog s'
  | k_error => error s = error s'
  end.

Definition log_of (a : Assign) : list StepLogEntry :=
  match a with
  | set_stepLog v => v
  | _ => []
  end.

Definition appended (u : Update) : list StepLogEntry := concat (log_of <$> u).

(** [read_in_order E k log k']: the entries of [log] are stamped with
    readings of the clock numbered from [k] up to, not including, [k'], each
    entry with a later reading than the entry before it. *)
Fixpoint read_in_order (E : Collaborators) (k : nat) (log : list StepLogEntry)
    (k' : nat) : Prop :=
  match log with
  | [] => (k ≤ k')%nat
  | e :: rest =>
      ∃ t, (k ≤ t)%nat ∧ timestamp e = iso (clock E t)
           ∧ read_in_order E (S t) rest k'
  end.

(** ** Sample data ([manualValidation.ts]) and sample collaborators *)

(** A scan payload for the sample container vulnerability with the given build
    verdict and residual CVEs. *)
Definition scan_with (ok : bool) (cves : list string) : RebuildScanResult :=
  {| r_vulnId := "test-vuln-container-001";
     r_cveId := "CVE-X";
     r_repoOwner := "test-org";
     r_repoName := "test-repo";
     r_imageName := "ubuntu:22.04";
     r_tag := "rebuild-cve-x";
     r_workflowRunId := 1%N;
     scanResults :=
       {| vulnerabilities :=
            (λ c, {| f_cveId := c; f_packageName := "openssl";
                     f_severity := "medium"; f_fixedVersion := None |}) <$> cves;
          totalCount := length cves;
          scanTool := "trivy" |};
     buildSuccess := ok;
     r_timestamp := "2024-02-09T12:05:00Z" |}.

Definition sample_instant (n : nat) : Instant :=
  {| epoch_ms := 1707480000000 + N.of_nat n; iso := "2024-02-09T12:00:00.000Z" |}.

Definition sampleCodeVuln : Vulnerability :=
  {| id := "test-vuln-code-001";
     cveId := "CVE-2024-29041";
     packageName := "express";
     currentVersion := "4.18.2";
     fixedVersion := Some "4.19.2";
     severity := high;
     description := "Open redirect vulnerability in Express.js allows attackers to redirect users to malicious sites";
     source := "snyk";
     imageName := None;
     filePath := Some "package.json";
     createdAt := iso (sample_instant 0);
     repoOwner := Some "test-org";
     repoName := Some "test-repo" |}.

Definition sampleContainerVuln : Vulnerability :=
  {| id := "test-vuln-container-001";
     cveId := "CVE-2023-4911";
     packageName := "glibc";
     currentVersion := "2.34-0ubuntu3";
     fixedVersion := Some "2.34-0ubuntu3.2";
     severity := critical;
     description := "Buffer overflow in GNU C Library (glibc) allows local privilege escalation";
     source := "trivy";
     imageName := Some "ubuntu:22.04";
     filePath := None;
     createdAt := iso (sample_instant 0);
     repoOwner := Some "test-org";
     repoName := Some "test-repo" |}.

Definition sampleRebuildScanResult : RebuildScanResult :=
  {| r_vulnId := "test-vuln-container-001";
     r_cveId := "CVE-2023-4911";
     r_repoOwner := "test-org";
     r_repoName := "test-repo";
     r_imageName := "ubuntu:22.04";
     r_tag := "rebuild-cve-2023-4911-2024-02-09";
     r_workflowRunId := 12345%N;
     scanResults :=
       {| vulnerabilities :=
            [{| f_cveId := "CVE-2024-9999"; f_packageName := "openssl";
                f_severity := "medium"; f_fixedVersion := Some "1.1.1w" |}];
          totalCount := 1;
          scanTool := "trivy" |};
     buildSuccess := true;
     r_timestamp := iso (sample_instant 0) |}.

Definition sampleRegistration : PendingRebuilds.RegisterParams :=
  {| PendingRebuilds.rp_vulnId := "test-vuln-container-001";
     PendingRebuilds.rp_cveId := "CVE-2023-4911";
     PendingRebuilds.rp_repoOwner := "test-org";
     PendingRebuilds.rp_repoName := "test-repo";
     PendingRebuilds.rp_tagName := "rebuild-cve-2023-4911-2024-02-09" |}.

(** The store after one registration of the sample rebuild. *)
Definition sampleStore : PendingRebuilds.Store :=
  (PendingRebuilds.registerPendingRebuild sampleRegistration (sample_instant 0)
     PendingRebuilds.empty_store).2.

(** Collaborators that all answer: the language model with text that is not
    JSON, the fix index with no match, GitHub and the index with success. *)
Definition not_json {A : Type} : LlmReply A :=
  {| content := Some "I could not produce JSON."; parsed := Unparseable |}.

Definition plainCollaborators : Collaborators :=
  {| clock := sample_instant;
     uuidv4 := λ n, "00000000-0000-4000-8000-00000000000" +:+ pretty n;
     llm_classify := λ _, Returns not_json;
     llm_rebuild := λ _, Returns not_json;
     llm_research := λ _, Returns not_json;
     search_index := λ _, Returns [];
     upload_fix := λ _, Returns ();
     github_pull_request := λ _,
       Returns {| r_prUrl := "https://github.com/test-org/test-repo/pull/1";
                  prNumber := 1 |};
     github_tag := λ _, Returns "main";
     github_dispatch := λ _, Returns () |}.

(** The same, with a language model that finds a rebuild sufficient. *)
Definition rebuildCollaborators : Collaborators :=
  {| clock := clock plainCollaborators;
     uuidv4 := uuidv4 plainCollaborators;
     llm_classify := llm_classify plainCollaborators;
     llm_rebuild := λ _,
       Returns {| content := Some "{...}";
                  parsed := ParsedAs {| a_rebuildWouldFix := true;
                                        a_rebuildReason := Some "patched upstream" |} |};
     llm_research := llm_research plainCollaborators;
     search_index := search_index plainCollaborators;
     upload_fix := upload_fix plainCollaborators;
     github_pull_request := github_pull_request plainCollaborators;
     github_tag := github_tag plainCollaborators;
     github_dispatch := github_dispatch plainCollaborators |}.

(** The same as the plain ones, with a fix index that refuses uploads. *)
Definition failingIndexCollaborators : Collaborators :=
  {| clock := clock plainCollaborators;
     uuidv4 := uuidv4 plainCollaborators;
     llm_classify := llm_classify plainCollaborators;
     llm_rebuild := llm_rebuild plainCollaborators;
     llm_research := llm_research plainCollaborators;
     search_index := search_index plainCollaborators;
     upload_fix := λ _, Throws "index unavailable";
     github_pull_request := github_pull_request plainCollaborators;
     github_tag := github_tag plainCollaborators;
     github_dispatch := github_dispatch plainCollaborators |}.

(** A second rebuild, of the sample code vulnerability's repository, and the
    store in which both wait. *)
Definition otherRegistration : PendingRebuilds.RegisterParams :=
  {| PendingRebuilds.rp_vulnId := "test-vuln-code-001";
     PendingRebuilds.rp_cveId := "CVE-2024-29041";
     PendingRebuilds.rp_repoOwner := "test-org";
     PendingRebuilds.rp_repoName := "test-repo";
     PendingRebuilds.rp_tagName := "rebuild-cve-2024-29041-2024-02-09" |}.

Definition twoWaitsStore : PendingRebuilds.Store :=
  (PendingRebuilds.registerPendingRebuild otherRegistration (sample_instant 1)
     sampleStore).2.

(** The plain collaborators with a fix index that cannot be searched. *)
Definition failingSearchCollaborators : Collaborators :=
  {| clock := clock plainCollaborators;
     uuidv4 := uuidv4 plainCollaborators;
     llm_classify := llm_classify plainCollaborators;
     llm_rebuild := llm_rebuild plainCollaborators;
     llm_research := llm_research plainCollaborators;
     search_index := λ _, Throws "search unavailable";
     upload_fix := upload_fix plainCollaborators;
     github_pull_request := github_pull_request plainCollaborators;
     github_tag := github_tag plainCollaborators;
     github_dispatch := github_dispatch plainCollaborators |}.

(** The plain collaborators with a repository that has no rebuild workflow. *)
Definition failingDispatchCollaborators : Collaborators :=
  {| clock := clock plainCollaborators;
     uuidv4 := uuidv4 plainCollaborators;
     llm_classify := llm_classify plainCollaborators;
     llm_rebuild := llm_rebuild plainCollaborators;
     llm_research := llm_research plainCollaborators;
     search_index := search_index plainCollaborators;
     upload_fix := upload_fix plainCollaborators;
     github_pull_request := github_pull_request plainCollaborators;
     github_tag := github_tag plainCollaborators;
     github_dispatch := λ _, Throws "Not Found" |}.

(** ** Reading the stages *)



(** The name under which a node of the graph writes to the step log. *)
Definition node_name (n : Node) : string :=
  match n with
  | n_classifyVuln => "classifyVuln"
  | n_tryRebuild => "tryRebuild"
  | n_searchRAG => "searchRAG"
  | n_researchFix => "researchFix"
  | n_createPR => "createPR"
  | n_createTagWorkflow => "createTagWorkflow"
  | n_verifyRebuildResult => "verifyRebuildResult"
  | n_storeInRAG => "storeInRAG"
  end.

(** The nodes on the paths of a code vulnerability after classification. *)
Definition code_node (n : Node) : bool :=
  match n with
  | n_searchRAG | n_researchFix | n_createPR | n_storeInRAG => true
  | _ => false
  end.

(** The step-log names of the stages a code vulnerability passes after
    classification. *)
Definition code_stage_names : list string :=
  ["searchRAG"; "researchFix"; "createPR"; "storeInRAG"].

(** ** The Dependabot parser ([parsers/dependabotParser.ts]) *)

Module Dependabot.

(** The parts of a Dependabot alert the parser reads ([parsers/types.ts]);
    every property may be missing. *)
Record Package := { ecosystem : option string; name : option string }.

Record Dependency := {
  package : option Package;
  manifest_path : option string;
}.

Record SecurityAdvisory := {
  ghsa_id : option string;
  cve_id : option string;
  summary : option string;
  adv_description : option string;
  adv_severity : option string;
}.

Record PatchedVersion := { identifier : option string }.

Record SecurityVulnerability := {
  sv_package : option Package;
  sv_severity : option string;
  vulnerable_version_range : option string;
  first_patched_version : option PatchedVersion;
}.

Record DependabotVulnerability := {
  number : option N;
  state : option string;
  dependency : option Dependency;
  security_advisory : option SecurityAdvisory;
  security_vulnerability : option SecurityVulnerability;
  created_at : option string;
}.

Record DependabotScanResult := { alerts : option (list DependabotVulnerability) }.

(** [a?.b]: the property of an object that may be missing. *)
Definition chain {A B : Type} (o : option A) (f : A → option B) : option B :=
  o ≫= f.

(** [a || b] on strings that may be missing, and [a || "literal"]. *)
Definition or_opt (a b : option string) : option string :=
  if Js.truthy a then a else b.

Definition or_str (a : option string) (fallback : string) : string :=
  match a with
  | Some s => if Js.truthy_string s then s else fallback
  | None => fallback
  end.

Definition normalizeDependabotSeverity (severity_ : option string) : Severity :=
  if Js.truthy severity_ then
    let lower := Js.toLowerCase (default EmptyString severity_) in
    if String.eqb lower "critical" then critical
    else if String.eqb lower "high" then high
    else if String.eqb lower "medium" || String.eqb lower "moderate" then medium
    else low
  else low.

Section parser.
Context (E : Collaborators).

(** [security_advisory?.cve_id || security_advisory?.ghsa_id ||
    `DEPENDABOT-${number || uuidv4()}`] *)
Definition alert_cveId (depVuln : DependabotVulnerability) : M string :=
  let advisory := security_advisory depVuln in
  if Js.truthy (chain advisory cve_id) then
    ret (default EmptyString (chain advisory cve_id))
  else if Js.truthy (chain advisory ghsa_id) then
    ret (default EmptyString (chain advisory ghsa_id))
  else
    match number depVuln with
    | Some n => if (n =? 0)%N
                then (let* u := fresh_uuid E in ret ("DEPENDABOT-" +:+ u))
                else ret ("DEPENDABOT-" +:+ pretty n)
    | None => let* u := fresh_uuid E in ret ("DEPENDABOT-" +:+ u)
    end.

Definition parseDependabotVulnerability (depVuln : DependabotVulnerability)
    : M Vulnerability :=
  let sv := security_vulnerability depVuln in
  let advisory := security_advisory depVuln in
  let dep := dependency depVuln in
  let packageName_ :=
    or_str (chain (chain sv sv_package) name)
      (or_str (chain (chain dep package) name) "unknown") in
  let* cveId_ := alert_cveId depVuln in
  let severity_ :=
    normalizeDependabotSeverity
      (or_opt (chain sv sv_severity) (chain advisory adv_severity)) in
  let description_ :=
    or_str (chain advisory adv_description)
      (or_str (chain advisory summary) "No description available") in
  let currentVersion_ := or_str (chain sv vulnerable_version_range) "unknown" in
  let fixedVersion_ := chain (chain sv first_patched_version) identifier in
  let filePath_ := chain dep manifest_path in
  let ecosystem_ :=
    or_str (Js.toLowerCase <$> chain (chain dep package) ecosystem) EmptyString in
  let isContainer :=
    String.eqb ecosystem_ "docker" || String.eqb ecosystem_ "container" in
  let* id_ := fresh_uuid E in
  let* createdAt_ :=
    (if Js.truthy (created_at depVuln)
     then ret (default EmptyString (created_at depVuln))
     else let* now := new_Date E in ret (iso now)) in
  ret {| id := id_;
         cveId := cveId_;
         packageName := packageName_;
         currentVersion := currentVersion_;
         fixedVersion := fixedVersion_;
         severity := severity_;
         description := description_;
         source := "dependabot";
         imageName := if isContainer then Some packageName_ else None;
         filePath := if negb isContainer then filePath_ else None;
         createdAt := createdAt_;
         repoOwner := None;
         repoName := None |}.

(** [list.map(f)] for an [f] that reads the id generator and the clock. *)
Fixpoint mapM {A B : Type} (f : A → M B) (l : list A) : M (list B) :=
  match l with
  | [] => ret []
  | x :: rest =>
      let* y := f x in
      let* ys := mapM f rest in
      ret (y :: ys)
  end.

(** [alert.state !== "dismissed" && alert.state !== "fixed"] *)
Definition open_alert (alert : DependabotVulnerability) : bool :=
  negb (bool_decide (state alert = Some "dismissed"))
  && negb (bool_decide (state alert = Some "fixed")).

Definition parseDependabotScanResult (scanResult : DependabotScanResult)
    : M (list Vulnerability) :=
  match alerts scanResult with
  | None => ret []
  | Some l =>
      if decide (length l = 0) then ret []
      else mapM parseDependabotVulnerability (filter (λ a, open_alert a = true) l)
  end.

End parser.

(** What holds of every vulnerability the parser makes. *)
Definition well_formed (v : Vulnerability) : Prop :=
  source v = "dependabot"
  ∧ cveId v ≠ EmptyString
  ∧ packageName v ≠ EmptyString
  ∧ description v ≠ EmptyString
  ∧ currentVersion v ≠ EmptyString
  ∧ ((imageName v = None) ∨ (imageName v = Some (packageName v) ∧ filePath v = None)).

(** An alert for a Docker base image, with neither CVE nor GHSA id. *)
Definition dockerAlert : DependabotVulnerability :=
  {| number := Some 17%N;
     state := Some "open";
     dependency :=
       Some {| package := Some {| ecosystem := Some "Docker"; name := Some "node" |};
               manifest_path := Some "Dockerfile" |};
     security_advisory := None;
     security_vulnerability :=
       Some {| sv_package := None; sv_severity := Some "Moderate";
               vulnerable_version_range := Some "< 20.11.0";
               first_patched_version := Some {| identifier := Some "20.11.0" |} |};
     created_at := None |}.

Definition sampleScan : DependabotScanResult :=
  {| alerts := Some [dockerAlert;
                     {| number := Some 18%N; state := Some "dismissed";
                        dependency := None; security_advisory := None;
                        security_vulnerability := None; created_at := None |}] |}.

End Dependabot.

(** ** SARIF import and export ([parsers/sarifParser.ts],
    [parsers/sarifConverter.ts]) *)

Module Sarif.















(** [a || b] and [a || "literal"] on strings that may be missing. *)
Definition or_opt (a b : option string) : option string :=
  if Js.truthy a then a else b.

Definition or_str (a : option string) (fallback : string) : string :=
  match a with
  | Some s => if Js.truthy_string s then s else fallback
  | None => fallback
  end.





Section parser.
Context (E : Collaborators).







End parser.

(** *** The converter *)









End Sarif.

(** ** The HTTP routes that store vulnerabilities and run the graph
    ([routes/index.ts]) *)

Module Routes.

(** The two in-memory maps of the router. *)
Record Server := {
  vulnerabilities : gmap string Vulnerability;
  remediationResults : gmap string RemediationState;
}.

Definition empty_server : Server :=
  {| vulnerabilities := ∅; remediationResults := ∅ |}.

Inductive Body :=
  | body_vulnerability (v : Vulnerability)
  | body_state (s : RemediationState)
  | body_error (error_ : string).

(** [res.status(code).json(payload)]; [res.json] alone answers 200. *)
Record Response := { code : nat; payload : Body }.

(** The body of [POST /api/vulnerabilities]: the fields of a vulnerability,
    where [id] and [createdAt] may be missing. The [id] and [createdAt] of
    [fields] stand for nothing. *)
Record VulnerabilityRequest := {
  req_id : option string;
  req_createdAt : option string;
  fields : Vulnerability;
}.

Definition with_id_createdAt (v : Vulnerability) (id_ createdAt_ : string)
    : Vulnerability :=
  {| id := id_; cveId := cveId v; packageName := packageName v;
     currentVersion := currentVersion v; fixedVersion := fixedVersion v;
     severity := severity v; description := description v; source := source v;
     imageName := imageName v; filePath := filePath v; createdAt := createdAt_;
     repoOwner := repoOwner v; repoName := repoName v |}.

(** [x ?? fallback()], where the fallback is only run when [x] is missing. *)
Definition or_else {A : Type} (o : option A) (fallback : M A) : M A :=
  match o with
  | Some x => ret x
  | None => fallback
  end.

Section handlers.
Context (E : Collaborators).

(** [POST /api/vulnerabilities] *)
Definition post_vulnerability (req : VulnerabilityRequest) (srv : Server)
    : M (Response * Server) :=
  let* id_ := or_else (req_id req) (fresh_uuid E) in
  let* createdAt_ :=
    or_else (req_createdAt req) (let* now := new_Date E in ret (iso now)) in
  let vuln := with_id_createdAt (fields req) id_ createdAt_ in
  ret ({| code := 201; payload := body_vulnerability vuln |},
       {| vulnerabilities := <[id vuln := vuln]> (vulnerabilities srv);
          remediationResults := remediationResults srv |}).

(** [POST /api/remediate/:id]. A run that reaches the recursion limit throws
    in the runtime; [run_enough_fuel] shows that [invoke] never does. *)
Definition post_remediate (id_ : string) (srv : Server) : M (Response * Server) :=
  match vulnerabilities srv !! id_ with
  | None =>
      ret ({| code := 404; payload := body_error "Vulnerability not found" |}, srv)
  | Some vuln =>
      try_catch
        (let* result := invoke E vuln in
         match result with
         | Some final =>
             ret ({| code := 200; payload := body_state final |},
                  {| vulnerabilities := vulnerabilities srv;
                     remediationResults :=
                       <[id vuln := final]> (remediationResults srv) |})
         | None => throw "Recursion limit reached"
         end)
        (λ err, ret ({| code := 500; payload := body_error err |}, srv))
  end.

End handlers.

(** [GET /api/remediation/:id] *)
Definition get_remediation (id_ : string) (srv : Server) : Response :=
  match remediationResults srv !! id_ with
  | None => {| code := 404; payload := body_error "No remediation found" |}
  | Some result => {| code := 200; payload := body_state result |}
  end.

(** Every vulnerability is stored under its own id. *)
Definition keyed (srv : Server) : Prop :=
  ∀ k v, vulnerabilities srv !! k = Some v → id v = k.

(** The sample code vulnerability, as posted without id and time stamp. *)
Definition sampleRequest : VulnerabilityRequest :=
  {| req_id := None; req_createdAt := None; fields := sampleCodeVuln |}.

End Routes.

(** ** The streaming route ([GET /api/remediate/:id/stream] of
    [routes/index.ts]) *)

Module Streaming.
Import Routes.

Inductive SSEEvent :=
  | sse_step (entry : StepLogEntry)
  | sse_state (data : Update)
  | sse_done (message_ : string)
  | sse_error (message_ : string).

(** The nine keys of a node output that a state event repeats. *)
Definition state_event_key (k : Key) : bool :=
  match k with
  | k_status | k_category | k_rebuildWouldFix | k_ragFixApplicable
  | k_proposedFix | k_prUrl | k_tagName | k_workflowRunUrl | k_error => true
  | _ => false
  end.

(** The events sent for one streamed update [{ nodeName: nodeOutput }]: a step
    event for each entry of its step log, then one state event. *)
Definition events_of (output : Update) : list SSEEvent :=
  (sse_step <$> appended output)
  ++ [sse_state (filter (λ a, state_event_key (key_of a) = true) output)].

Section stream.
Context (E : Collaborators).

(** [graph.stream(input, { streamMode: "updates" })]: the run of the graph,
    handing out the update of each node as the node returns. The answer lists
    the updates handed out, and tells how the run ended. *)
Fixpoint stream (fuel : nat) (n : Node) (state : RemediationState) (w : World)
    : list Update * Outcome (option RemediationState) * World :=
  match fuel with
  | 0 => ([], Returns None, w)
  | S fuel' =>
      match stage E n state w with
      | (Throws err, w1) => ([], Throws err, w1)
      | (Returns update, w1) =>
          let state' := applyUpdate state update in
          match next_node n state' with
          | None => ([update], Returns (Some state'), w1)
          | Some n' =>
              let '(updates, outcome, w2) := stream fuel' n' state' w1 in
              (update :: updates, outcome, w2)
          end
      end
  end.

Inductive StreamAnswer :=
  | stream_not_found
  | streamed (events : list SSEEvent).

Definition recursion_error : string := "Recursion limit reached".

(** The handler: stream the run and send its events, then invoke the graph
    once more for the final state, store that and send [done]; an error at any
    point ends the events with [error]. *)
Definition stream_remediate (id_ : string) (srv : Server) (w : World)
    : StreamAnswer * Server * World :=
  match vulnerabilities srv !! id_ with
  | None => (stream_not_found, srv, w)
  | Some vuln =>
      let '(updates, outcome, w1) :=
        stream 25 n_classifyVuln (initial_state vuln) w in
      let sent := concat (events_of <$> updates) in
      match outcome with
      | Throws err => (streamed (sent ++ [sse_error err]), srv, w1)
      | Returns None => (streamed (sent ++ [sse_error recursion_error]), srv, w1)
      | Returns (Some _) =>
          match invoke E vuln w1 with
          | (Returns (Some finalState), w2) =>
              (streamed (sent ++ [sse_done "Remediation complete"]),
               {| vulnerabilities := vulnerabilities srv;
                  remediationResults :=
                    <[id vuln := finalState]> (remediationResults srv) |},
               w2)
          | (Returns None, w2) =>
              (streamed (sent ++ [sse_error recursion_error]), srv, w2)
          | (Throws err, w2) => (streamed (sent ++ [sse_error err]), srv, w2)
          end
      end
  end.

End stream.

(** The step-log entries among the events sent. *)
Definition steps_sent (events : list SSEEvent) : list StepLogEntry :=
  omap (λ e, match e with sse_step entry => Some entry | _ => None end) events.

End Streaming.

(** A server that stores the sample code vulnerability. *)
Definition sampleServer : Routes.Server :=
  {| Routes.vulnerabilities := {[ "test-vuln-code-001" := sampleCodeVuln ]};
     Routes.remediationResults := ∅ |}.

(** ** Reading the pending-rebuild store *)

Module StoreEvents.
Import PendingRebuilds.

(** The vulnId an event is about: the key registered or resolved, or the key
    the closure of the fired timer captured. An unarmed timer is about none. *)
Definition targets (s : Store) (e : Event) (v : string) : Prop :=
  match e with
  | ev_register params _ => rp_vulnId params = v
  | ev_resolve v0 _ => v0 = v
  | ev_fire t => ∃ tm, timers s !! t = Some tm ∧ t_vulnId tm = v
  end.

(** Every promise that is not settled belongs to an entry of the map. *)
Definition orphan_free (s : Store) : Prop :=
  ∀ p, promises s !! p = Some None →
       ∃ v e, pending s !! v = Some e ∧ promise e = p.

End StoreEvents.

(** * Properties of the pending-rebuild store *)

Module PendingRebuildsSpec.
Import PendingRebuilds.

Section settle_facts.
Context (p : nat) (o : Settlement) (ps : gmap nat (option Settlement)).

Lemma settle_other q : p ≠ q → settle p o ps !! q = ps !! q.
Proof.
  intros Hne. unfold settle.
  destruct (ps !! p) as [[x|]|]; try done. by rewrite lookup_insert_ne.
Qed.

Lemma settle_waiting : ps !! p = Some None → settle p o ps !! p = Some (Some o).
Proof. intros Hp. unfold settle. rewrite Hp. apply lookup_insert_eq. Qed.

Lemma settle_settled q x : ps !! q = Some (Some x) → settle p o ps !! q = Some (Some x).
Proof.
  intros Hq. destruct (decide (p = q)) as [->|Hne].
  - unfold settle. by rewrite Hq.
  - by rewrite settle_other.
Qed.

Lemma settle_is_Some q : is_Some (settle p o ps !! q) → is_Some (ps !! q).
Proof.
  destruct (decide (p = q)) as [->|Hne].
  - unfold settle. by destruct (ps !! q) as [[x|]|] eqn:Hq; rewrite ?Hq.
  - by rewrite settle_other.
Qed.

End settle_facts.

Lemma completions_app tr1 tr2 :
  completions (tr1 ++ tr2) = completions tr1 ++ completions tr2.
Proof. apply omap_app. Qed.

Lemma consistent_empty : consistent empty_store.
Proof.
  split; simpl; try (intros; simplify_map_eq; done).
  all: try (intros ? [? ?]; simplify_map_eq; done).
  - constructor.
  - intros p Hp. by apply elem_of_nil in Hp.
Qed.

(** An entry leaves the store: its key is deleted, its timer is no longer
    armed, and its promise is completed, once. *)
Lemma consistent_remove s s' v e o :
  consistent s → pending s !! v = Some e →
  pending s' = delete v (pending s) →
  timers s' = delete (timeoutId e) (timers s) →
  promises s' = settle (promise e) o (promises s) →
  completions (trace s') = completions (trace s) ++ [promise e] →
  nextPromise s' = nextPromise s → nextTimer s' = nextTimer s →
  consistent s'.
Proof.
  intros C He Hp Ht Hs Hc Hnp Hnt.
  assert (Hother : ∀ v0 e0, delete v (pending s) !! v0 = Some e0 →
            v0 ≠ v ∧ pending s !! v0 = Some e0).
  { intros v0 e0 H0. destruct (decide (v = v0)) as [->|Hne].
    - by rewrite lookup_delete_eq in H0.
    - by rewrite lookup_delete_ne in H0. }
  split; rewrite ?Hp, ?Ht, ?Hs, ?Hc, ?Hnp, ?Hnt.
  - intros v0 e0 [_ H0]%Hother. by eapply entry_key.
  - intros v0 e0 [Hne H0]%Hother.
    rewrite settle_other; [by eapply entry_waiting|].
    intros Heq. apply Hne. symmetry. by eapply (entry_promise_inj s C v v0).
  - intros v0 e0 [Hne H0]%Hother.
    destruct (entry_timer s C v0 e0 H0) as (tm & Htm & Hv & Hrest).
    exists tm. split; [|done].
    rewrite lookup_delete_ne; [done|].
    intros Heq. destruct (entry_timer s C v e He) as (tm' & Htm' & Hv' & _).
    rewrite Heq in Htm'. congruence.
  - intros v1 v2 e1 e2 [_ H1]%Hother [_ H2]%Hother. by eapply entry_promise_inj.
  - intros t tm Htm.
    destruct (decide (timeoutId e = t)) as [<-|Hne];
      [by rewrite lookup_delete_eq in Htm|].
    rewrite lookup_delete_ne in Htm by done.
    destruct (timer_entry s C t tm Htm) as (e0 & H0 & Hid).
    exists e0. split; [|done].
    rewrite lookup_delete_ne; [done|]. intros Heq. congruence.
  - intros p Hp'. apply settle_is_Some in Hp'. by apply promise_bound.
  - intros t [x Hx]. apply timer_bound; [done|].
    destruct (decide (timeoutId e = t)) as [<-|Hne];
      [by rewrite lookup_delete_eq in Hx|].
    rewrite lookup_delete_ne in Hx by done. by eexists.
  - apply NoDup_app. split; [by apply completed_once|]. split; [|apply NoDup_singleton].
    intros p Hin ->%list_elem_of_singleton.
    destruct (completed_settled s C _ Hin) as [x Hx].
    pose proof (entry_waiting s C v e He). congruence.
  - intros p [Hin| ->%list_elem_of_singleton]%elem_of_app.
    + destruct (completed_settled s C _ Hin) as [x Hx].
      exists x. by apply settle_settled.
    + exists o. apply settle_waiting. by eapply entry_waiting.
Qed.

Lemma consistent_supersede v s : consistent s → consistent (supersede v s).
Proof.
  intros C. unfold supersede. destruct (pending s !! v) as [e|] eqn:He; [|done].
  eapply (consistent_remove s _ v e); try done; simpl.
  rewrite completions_app. done.
Qed.

Lemma supersede_absent v s : pending (supersede v s) !! v = None.
Proof.
  unfold supersede. destruct (pending s !! v) as [e|] eqn:He; [|done].
  simpl. apply lookup_delete_eq.
Qed.

Lemma consistent_register params now s :
  consistent s → consistent (registerPendingRebuild params now s).2.
Proof.
  intros C0. unfold registerPendingRebuild.
  pose proof (consistent_supersede (rp_vulnId params) s C0) as C.
  pose proof (supersede_absent (rp_vulnId params) s) as Habs.
  set (s1 := supersede (rp_vulnId params) s) in *.
  set (v := rp_vulnId params) in *. simpl.
  assert (Hfp : promises s1 !! nextPromise s1 = None).
  { destruct (promises s1 !! nextPromise s1) eqn:Hx; [|done].
    assert (nextPromise s1 < nextPromise s1) by (apply promise_bound; eauto). lia. }
  assert (Hft : timers s1 !! nextTimer s1 = None).
  { destruct (timers s1 !! nextTimer s1) eqn:Hx; [|done].
    assert (nextTimer s1 < nextTimer s1) by (apply timer_bound; eauto). lia. }
  assert (Hpne : ∀ v0 e0, pending s1 !! v0 = Some e0 → promise e0 ≠ nextPromise s1).
  { intros v0 e0 H0 Heq. pose proof (entry_waiting s1 C v0 e0 H0). congruence. }
  assert (Htne : ∀ v0 e0, pending s1 !! v0 = Some e0 → timeoutId e0 ≠ nextTimer s1).
  { intros v0 e0 H0 Heq. destruct (entry_timer s1 C v0 e0 H0) as (tm & Htm & _).
    congruence. }
  split; simpl.
  - intros v0 e0 [[<- <-]|[Hne H0]]%lookup_insert_Some; [done|].
    by eapply entry_key.
  - intros v0 e0 [[<- <-]|[Hne H0]]%lookup_insert_Some; simpl.
    + apply lookup_insert_eq.
    + rewrite lookup_insert_ne by (symmetry; by eapply Hpne).
      by eapply entry_waiting.
  - intros v0 e0 [[<- <-]|[Hne H0]]%lookup_insert_Some; simpl.
    + eexists. by rewrite lookup_insert_eq.
    + rewrite lookup_insert_ne by (symmetry; by eapply Htne).
      by eapply entry_timer.
  - intros v1 v2 e1 e2 [[<- <-]|[Hne1 H1]]%lookup_insert_Some
      [[<- <-]|[Hne2 H2]]%lookup_insert_Some; simpl; intros Heq; try done.
    + exfalso. by eapply Hpne.
    + exfalso. by eapply Hpne.
    + by eapply entry_promise_inj.
  - intros t tm [[<- <-]|[Hne Htm]]%lookup_insert_Some; simpl.
    + eexists. by rewrite lookup_insert_eq.
    + destruct (timer_entry s1 C t tm Htm) as (e0 & H0 & Hid).
      exists e0. split; [|done]. rewrite lookup_insert_ne; [done|].
      intros Heq. rewrite <- Heq in H0. congruence.
  - intros p [x [[<- <-]|[Hne Hx]]%lookup_insert_Some]; [lia|].
    assert (p < nextPromise s1) by (apply promise_bound; eauto). lia.
  - intros t [x [[<- <-]|[Hne Hx]]%lookup_insert_Some]; [lia|].
    assert (t < nextTimer s1) by (apply timer_bound; eauto). lia.
  - rewrite completions_app. simpl. rewrite app_nil_r. by apply completed_once.
  - rewrite completions_app. simpl. rewrite app_nil_r. intros p Hin.
    destruct (completed_settled s1 C p Hin) as [x Hx]. exists x.
    rewrite lookup_insert_ne; [done|]. intros <-. congruence.
Qed.

Lemma consistent_resolve v result s :
  consistent s → consistent (resolvePendingRebuild v result s).2.
Proof.
  intros C. unfold resolvePendingRebuild.
  destruct (pending s !! v) as [e|] eqn:He; [|done].
  eapply (consistent_remove s _ v e); try done; simpl.
  by rewrite completions_app.
Qed.

(** An armed timer belongs to the entry that is in the map under its vulnId. *)
Lemma armed_timer_entry s t tm :
  consistent s → timers s !! t = Some tm →
  ∃ e, pending s !! t_vulnId tm = Some e ∧ timeoutId e = t
       ∧ promise e = t_promise tm ∧ p_cveId e = t_cveId tm.
Proof.
  intros C Htm. destruct (timer_entry s C t tm Htm) as (e & He & <-).
  destruct (entry_timer s C _ e He) as (tm' & Htm' & _ & Hp & Hc).
  exists e. repeat split; congruence.
Qed.

Lemma consistent_fire t s : consistent s → consistent (fireTimer t s).
Proof.
  intros C. unfold fireTimer. destruct (timers s !! t) as [tm|] eqn:Htm; [|done].
  destruct (armed_timer_entry s t tm C Htm) as (e & He & <- & Hp & Hc).
  unfold timeout_callback. simpl. rewrite He.
  eapply (consistent_remove s _ (t_vulnId tm) e); try done; simpl.
  - by rewrite Hp.
  - rewrite completions_app. simpl. by rewrite Hp.
Qed.

Lemma reachable_consistent s : reachable s → consistent s.
Proof.
  induction 1 as [|s e _ IH]; [apply consistent_empty|].
  destruct e; simpl.
  - by apply consistent_register.
  - by apply consistent_resolve.
  - by apply consistent_fire.
Qed.

Section snapshot.
Context (s : Store) (C : consistent s) (v : string).

Lemma filter_none {A : Type} (P : A → Prop) `{∀ x, Decision (P x)} (l : list A) :
  Forall (λ x, ¬ P x) l → filter P l = [].
Proof.
  induction 1 as [|x l Hx _ IH]; [done|]. by rewrite filter_cons_False.
Qed.

Lemma others_not_for (m : gmap string PendingRebuild) :
  (∀ k e, m !! k = Some e → vulnId e = k) → m !! v = None →
  entries_for v ((info ∘ snd) <$> map_to_list m) = [].
Proof.
  intros Hkey Hv. apply filter_none. apply Forall_fmap, Forall_forall.
  intros [k e] Hin%elem_of_map_to_list. simpl.
  rewrite (Hkey k e Hin). intros ->. congruence.
Qed.

Lemma entries_absent :
  pending s !! v = None → entries_for v (listPendingRebuilds s) = [].
Proof. apply others_not_for. by apply entry_key. Qed.

Lemma entries_present e :
  pending s !! v = Some e → length (entries_for v (listPendingRebuilds s)) = 1.
Proof.
  intros He. unfold entries_for, listPendingRebuilds.
  rewrite <- (map_to_list_delete _ _ _ He). rewrite fmap_cons.
  rewrite filter_cons_True by (simpl; by eapply entry_key).
  simpl. f_equal. apply (f_equal length (y := [])).
  apply others_not_for; [|apply lookup_delete_eq].
  intros k e0 H0. destruct (decide (v = k)) as [->|Hne].
  - by rewrite lookup_delete_eq in H0.
  - rewrite lookup_delete_ne in H0 by done. by eapply entry_key.
Qed.

End snapshot.

(** C3. Registering a wait for a vulnId that already has one supersedes the
    old entry: its timer is cleared and its waiter rejected with the
    superseded error, in this order and before the new entry is set; the new
    entry has a promise and a timer of its own, and the snapshot then holds
    exactly one entry for that vulnId. *)
Theorem register_supersedes s params now existing :
  reachable s → pending s !! rp_vulnId params = Some existing →
  let v := rp_vulnId params in
  let r := registerPendingRebuild params now s in
  trace r.2 = trace s ++ [ClearTimeout (timeoutId existing);
                          CallReject (promise existing) superseded_message;
                          MapDelete v;
                          NewPromise r.1; SetTimeout (nextTimer s) REBUILD_TIMEOUT_MS;
                          MapSet v]
  ∧ timers r.2 !! timeoutId existing = None
  ∧ promises s !! promise existing = Some None
  ∧ promises r.2 !! promise existing = Some (Some (RejectedWith superseded_message))
  ∧ (∃ e, pending r.2 !! v = Some e ∧ promise e = r.1
          ∧ promise e ≠ promise existing ∧ timeoutId e ≠ timeoutId existing
          ∧ promises r.2 !! promise e = Some None
          ∧ is_Some (timers r.2 !! timeoutId e))
  ∧ length (entries_for v (listPendingRebuilds r.2)) = 1.
Proof.
  intros Hr He v r. pose proof (reachable_consistent s Hr) as C.
  pose proof (consistent_register params now s C) as C'. fold r in C'.
  pose proof (entry_waiting s C _ _ He) as Hwait.
  destruct (entry_timer s C _ _ He) as (tm & Htm & _).
  assert (Hp : promise existing < nextPromise s) by (apply promise_bound; eauto).
  assert (Ht : timeoutId existing < nextTimer s) by (apply timer_bound; eauto).
  subst r v. unfold registerPendingRebuild, supersede. rewrite He. simpl.
  split_and!.
  - by rewrite <- app_assoc.
  - rewrite lookup_insert_ne by lia. apply lookup_delete_eq.
  - done.
  - rewrite lookup_insert_ne by lia. by apply settle_waiting.
  - eexists. split; [apply lookup_insert_eq|]. simpl.
    split_and!; try done; try lia.
    + apply lookup_insert_eq.
    + rewrite lookup_insert_eq. by eexists.
  - eapply entries_present.
    + revert C'. unfold registerPendingRebuild, supersede. rewrite He. simpl. done.
    + simpl. apply lookup_insert_eq.
Qed.

Lemma register_supersedes_witness :
  reachable sampleStore
  ∧ length (entries_for "test-vuln-container-001"
              (listPendingRebuilds
                 (registerPendingRebuild sampleRegistration (sample_instant 5)
                    sampleStore).2)) = 1.
Proof.
  split.
  - apply (reachable_step empty_store
             (ev_register sampleRegistration (sample_instant 0))), reachable_empty.
  - refine (proj2 (proj2 (proj2 (proj2 (proj2
      (register_supersedes sampleStore sampleRegistration (sample_instant 5)
         {| vulnId := "test-vuln-container-001"; p_cveId := "CVE-2023-4911";
            p_repoOwner := "test-org"; p_repoName := "test-repo";
            tagName := "rebuild-cve-2023-4911-2024-02-09";
            p_createdAt := iso (sample_instant 0); promise := 0; timeoutId := 0 |}
         _ _)))))).
    + apply (reachable_step empty_store
               (ev_register sampleRegistration (sample_instant 0))), reachable_empty.
    + vm_compute. reflexivity.
Defined.

(** C4. [resolvePendingRebuild] on a vulnId with a pending entry clears the
    timer of the entry, resolves its waiter with the result, deletes the entry
    and answers true; a second call for the vulnId, and a call for a vulnId
    without an entry, answer false and leave the store as it is. In no store
    the operations produce is a waiter completed twice. *)
Theorem resolve_once s v result :
  reachable s →
  (∀ e, pending s !! v = Some e →
     let r := resolvePendingRebuild v result s in
     r.1 = true
     ∧ trace r.2 = trace s ++ [ClearTimeout (timeoutId e);
                              CallResolve (promise e) result; MapDelete v]
     ∧ timers r.2 = delete (timeoutId e) (timers s)
     ∧ promises s !! promise e = Some None
     ∧ promises r.2 !! promise e = Some (Some (Fulfilled result))
     ∧ pending r.2 = delete v (pending s)
     ∧ (∀ result', resolvePendingRebuild v result' r.2 = (false, r.2)))
  ∧ (pending s !! v = None → resolvePendingRebuild v result s = (false, s))
  ∧ NoDup (completions (trace s))
  ∧ NoDup (completions (trace (resolvePendingRebuild v result s).2)).
Proof.
  intros Hr. pose proof (reachable_consistent s Hr) as C. split_and!.
  - intros e He r. subst r.
    remember (resolvePendingRebuild v result s) as r eqn:Hreq.
    unfold resolvePendingRebuild in Hreq. rewrite He in Hreq. subst r. simpl.
    split_and!; try done.
    + by eapply entry_waiting.
    + apply settle_waiting. by eapply entry_waiting.
    + intros result'. unfold resolvePendingRebuild. simpl.
      by rewrite lookup_delete_eq.
  - intros Hv. unfold resolvePendingRebuild. by rewrite Hv.
  - by apply completed_once.
  - apply completed_once, consistent_resolve, C.
Qed.

Lemma resolve_once_witness :
  reachable sampleStore
  ∧ (resolvePendingRebuild "test-vuln-container-001" sampleRebuildScanResult
       sampleStore).1 = true
  ∧ resolvePendingRebuild "unknown-vuln" sampleRebuildScanResult sampleStore
    = (false, sampleStore).
Proof.
  assert (reachable sampleStore) as Hr
    by apply (reachable_step empty_store
                (ev_register sampleRegistration (sample_instant 0))), reachable_empty.
  split; [exact Hr|]. split.
  - refine (proj1 (proj1
      (resolve_once sampleStore "test-vuln-container-001" sampleRebuildScanResult Hr)
      {| vulnId := "test-vuln-container-001"; p_cveId := "CVE-2023-4911";
         p_repoOwner := "test-org"; p_repoName := "test-repo";
         tagName := "rebuild-cve-2023-4911-2024-02-09";
         p_createdAt := iso (sample_instant 0); promise := 0; timeoutId := 0 |} _)).
    vm_compute. reflexivity.
  - refine (proj1 (proj2
      (resolve_once sampleStore "unknown-vuln" sampleRebuildScanResult Hr)) _).
    vm_compute. reflexivity.
Defined.

(** C5. Registration arms a timer due 30 minutes (1 800 000 ms) after the
    registration. When an armed timer fires, the entry of its vulnId is in the
    map; the callback deletes it and rejects its waiter with the timeout error,
    which names the bound in seconds, and the snapshot no longer lists that
    vulnId. The callback does nothing when the entry is gone. Once an entry was
    resolved or superseded by a new registration, its timer is no longer armed,
    so that its firing changes nothing. *)
Theorem timeout_expiry s :
  reachable s →
  REBUILD_TIMEOUT_MS = (30 * 60 * 1000)%N
  ∧ (∀ params now,
       let r := registerPendingRebuild params now s in
       ∃ e, pending r.2 !! rp_vulnId params = Some e
            ∧ timers r.2 !! timeoutId e
              = Some {| due := (epoch_ms now + 1800000)%N;
                        t_vulnId := rp_vulnId params;
                        t_cveId := rp_cveId params;
                        t_promise := promise e |})
  ∧ (∀ t tm, timers s !! t = Some tm →
       ∃ e, pending s !! t_vulnId tm = Some e ∧ timeoutId e = t
            ∧ promises s !! promise e = Some None
            ∧ let s' := fireTimer t s in
              pending s' = delete (t_vulnId tm) (pending s)
              ∧ trace s' = trace s ++
                  [MapDelete (t_vulnId tm);
                   CallReject (promise e)
                     ("Rebuild timed out after 1800s for " +:+ p_cveId e)]
              ∧ promises s' !! promise e
                = Some (Some (RejectedWith
                     ("Rebuild timed out after 1800s for " +:+ p_cveId e)))
              ∧ entries_for (t_vulnId tm) (listPendingRebuilds s') = [])
  ∧ (∀ tm s0, pending s0 !! t_vulnId tm = None → timeout_callback tm s0 = s0)
  ∧ (∀ v e, pending s !! v = Some e →
       (∀ result,
          let s2 := (resolvePendingRebuild v result s).2 in
          timers s2 !! timeoutId e = None ∧ fireTimer (timeoutId e) s2 = s2)
       ∧ (∀ params now, rp_vulnId params = v →
          let s2 := (registerPendingRebuild params now s).2 in
          timers s2 !! timeoutId e = None ∧ fireTimer (timeoutId e) s2 = s2)).
Proof.
  intros Hr. pose proof (reachable_consistent s Hr) as C. split_and!.
  - reflexivity.
  - intros params now r. subst r. unfold registerPendingRebuild. simpl.
    eexists. split; [apply lookup_insert_eq|]. simpl. by rewrite lookup_insert_eq.
  - intros t tm Htm.
    destruct (armed_timer_entry s t tm C Htm) as (e & He & <- & Hp & Hc).
    exists e. split_and!; try done; [by eapply entry_waiting|].
    pose proof (consistent_fire (timeoutId e) s C) as C'. revert C'.
    unfold fireTimer. rewrite Htm. unfold timeout_callback. simpl. rewrite He.
    intros C'. simpl. rewrite <- Hp, <- Hc. split_and!; try done.
    + apply settle_waiting. by eapply entry_waiting.
    + apply (entries_absent _ C'). simpl. apply lookup_delete_eq.
  - intros tm s0 H0. unfold timeout_callback. by rewrite H0.
  - intros v e He. split.
    + intros result s2. subst s2. unfold resolvePendingRebuild. rewrite He. simpl.
      assert (delete (timeoutId e) (timers s) !! timeoutId e = None) as Hgone
        by apply lookup_delete_eq.
      split; [done|]. unfold fireTimer. simpl. by rewrite Hgone.
    + intros params now <- s2. subst s2.
      assert (Ht : timeoutId e < nextTimer s).
      { destruct (entry_timer s C _ _ He) as (tm & Htm & _).
        apply timer_bound; eauto. }
      unfold registerPendingRebuild, supersede. rewrite He. simpl.
      assert (<[nextTimer s := {| due := (epoch_ms now + REBUILD_TIMEOUT_MS)%N;
                                  t_vulnId := rp_vulnId params;
                                  t_cveId := rp_cveId params;
                                  t_promise := nextPromise s |}]>
                (delete (timeoutId e) (timers s)) !! timeoutId e = None) as Hgone.
      { rewrite lookup_insert_ne by lia. apply lookup_delete_eq. }
      split; [done|]. unfold fireTimer. simpl. by rewrite Hgone.
Qed.

Lemma timeout_expiry_witness :
  reachable sampleStore
  ∧ ∃ e, pending sampleStore !! "test-vuln-container-001" = Some e ∧ timeoutId e = 0
         ∧ entries_for "test-vuln-container-001"
             (listPendingRebuilds (fireTimer 0 sampleStore)) = [].
Proof.
  assert (reachable sampleStore) as Hr
    by apply (reachable_step empty_store
                (ev_register sampleRegistration (sample_instant 0))), reachable_empty.
  split; [exact Hr|].
  destruct (proj1 (proj2 (proj2 (timeout_expiry sampleStore Hr))) 0
              {| due := 1707481800000%N; t_vulnId := "test-vuln-container-001";
                 t_cveId := "CVE-2023-4911"; t_promise := 0 |})
    as (e & He & Hid & _ & _ & _ & _ & Hlist).
  - vm_compute. reflexivity.
  - exists e. auto.
Defined.

End PendingRebuildsSpec.

(** * Properties of the state and its reducers *)

Lemma stepLog_apply_assign s a :
  stepLog (apply_assign s a) = stepLog s ++ log_of a.
Proof. destruct a; simpl; by rewrite ?app_nil_r. Qed.

Lemma stepLog_applyUpdate s u :
  stepLog (applyUpdate s u) = stepLog s ++ appended u.
Proof.
  revert s. induction u as [|a u IH]; intros s; unfold appended; simpl.
  - by rewrite app_nil_r.
  - unfold applyUpdate in IH. rewrite IH, stepLog_apply_assign.
    by rewrite <- app_assoc.
Qed.

Lemma carries_apply_assign s a : key_of a ≠ k_stepLog → carries a (apply_assign s a).
Proof. destruct a; simpl; done. Qed.

Lemma carries_kept s a b :
  key_of a ≠ key_of b → key_of b ≠ k_stepLog →
  carries b s → carries b (apply_assign s a).
Proof. destruct a, b; simpl; done. Qed.

Lemma carries_kept_update u s b :
  key_of b ∉ key_of <$> u → key_of b ≠ k_stepLog →
  carries b s → carries b (applyUpdate s u).
Proof.
  revert s. induction u as [|a u IH]; intros s Hnot Hb Hc; [done|].
  rewrite fmap_cons, not_elem_of_cons in Hnot. destruct Hnot as [Hne Hnot].
  apply IH; [done..|]. by apply carries_kept.
Qed.

Lemma same_channel_apply_assign s a k : key_of a ≠ k → same_channel k s (apply_assign s a).
Proof. destruct a, k; simpl; done. Qed.

Lemma same_channel_trans k s1 s2 s3 :
  same_channel k s1 s2 → same_channel k s2 s3 → same_channel k s1 s3.
Proof. destruct k; simpl; congruence. Qed.

Lemma same_channel_update u s k :
  k ∉ key_of <$> u → same_channel k s (applyUpdate s u).
Proof.
  revert s. induction u as [|a u IH]; intros s Hnot.
  - destruct k; done.
  - rewrite fmap_cons, not_elem_of_cons in Hnot. destruct Hnot as [Hne Hnot].
    eapply same_channel_trans; [|by apply IH].
    by apply same_channel_apply_assign.
Qed.

Lemma superstep_update E n s w s' w' :
  superstep E n s w = (Returns s', w') →
  ∃ u, stage E n s w = (Returns u, w') ∧ s' = applyUpdate s u.
Proof.
  unfold superstep, bind, ret. destruct (stage E n s w) as [[u|err] w1] eqn:Hst; [|done].
  intros [= <- <-]. eauto.
Qed.

Lemma run_log_prefix E fuel : ∀ n s w s' w',
  run E fuel n s w = (Returns (Some s'), w') → stepLog s `prefix_of` stepLog s'.
Proof.
  induction fuel as [|fuel IH]; intros n s w s' w'; simpl; [done|].
  unfold bind at 1. destruct (superstep E n s w) as [[s1|err] w1] eqn:Hstep; [|done].
  apply superstep_update in Hstep as (u & _ & ->).
  assert (stepLog s `prefix_of` stepLog (applyUpdate s u)) as Hpre.
  { rewrite stepLog_applyUpdate. by apply prefix_app_r. }
  destruct (next_node n (applyUpdate s u)) as [n'|].
  - intros Hrun. etrans; [exact Hpre|]. by eapply IH.
  - intros [= <- <-]. done.
Qed.

Lemma next_node_rank n s n' : next_node n s = Some n' → rank n' < rank n.
Proof.
  destruct n; simpl;
    unfold after_classifyVuln, after_tryRebuild, after_searchRAG,
      after_researchFix, after_verifyRebuildResult;
    repeat case_match; intros [= <-]; simpl; lia.
Qed.

Lemma run_enough_fuel E fuel : ∀ n s w,
  (rank n ≤ fuel)%nat → (run E fuel n s w).1 ≠ Returns None.
Proof.
  induction fuel as [|fuel IH]; intros n s w Hrank.
  - destruct n; simpl in Hrank; lia.
  - simpl. unfold bind at 1.
    destruct (superstep E n s w) as [[s1|err] w1]; [|done].
    destruct (next_node n s1) as [n'|] eqn:Hnext; [|done].
    apply IH. apply next_node_rank in Hnext. lia.
Qed.

Lemma read_in_order_bounds E log : ∀ k k', read_in_order E k log k' → (k ≤ k')%nat.
Proof.
  induction log as [|e rest IH]; intros k k'; simpl; [done|].
  intros (t & Hk & _ & Hrest). apply IH in Hrest. lia.
Qed.

Lemma read_in_order_widen E log : ∀ k0 k k' k1,
  (k0 ≤ k)%nat → (k' ≤ k1)%nat → read_in_order E k log k' → read_in_order E k0 log k1.
Proof.
  induction log as [|e rest IH]; intros k0 k k' k1 H0 H1; simpl; [lia|].
  intros (t & Hk & Ht & Hrest). exists t. split_and!; [lia|done|].
  by apply (IH (S t) (S t) k' k1).
Qed.

Lemma read_in_order_app E l1 : ∀ l2 k k1 k2,
  read_in_order E k l1 k1 → read_in_order E k1 l2 k2 →
  read_in_order E k (l1 ++ l2) k2.
Proof.
  induction l1 as [|e rest IH]; intros l2 k k1 k2; simpl.
  - intros Hk H2. by apply (read_in_order_widen E l2 k k1 k2 k2).
  - intros (t & Hk & Ht & Hrest) H2. exists t. split_and!; [done..|].
    by eapply IH.
Qed.

(** Every stage stamps its entries with successive readings of the clock. *)
Lemma stage_read_in_order E n state w u w' :
  stage E n state w = (Returns u, w') →
  read_in_order E (tick w) (appended u) (tick w').
Proof.
  destruct n; simpl;
    unfold classifyVuln, tryRebuild, searchRAG, researchFix, createPRNode,
      createTagWorkflowNode, verifyRebuildResult, storeInRAG,
      createApprovalTagWorkflow, create_tag, createWorkflowDispatch,
      createPullRequest, storeFix, searchFixes, fresh_uuid, verify,
      logEntry, new_Date, try_catch, bind, lift, ret;
    simpl;
    repeat (case_match; simplify_eq/=; try done);
    intros; simplify_eq/=; unfold appended; simpl;
    repeat (eexists; split_and!; [|reflexivity|]); simpl; lia.
Qed.

Lemma run_read_in_order E fuel : ∀ n s w s' w',
  run E fuel n s w = (Returns (Some s'), w') →
  ∃ new, stepLog s' = stepLog s ++ new ∧ read_in_order E (tick w) new (tick w').
Proof.
  induction fuel as [|fuel IH]; intros n s w s' w'; simpl; [done|].
  unfold bind at 1. destruct (superstep E n s w) as [[s1|err] w1] eqn:Hstep; [|done].
  apply superstep_update in Hstep as (u & Hst & ->).
  apply stage_read_in_order in Hst.
  destruct (next_node n (applyUpdate s u)) as [n'|].
  - intros (new & Hlog & Hnew)%IH. exists (appended u ++ new). split.
    + by rewrite Hlog, stepLog_applyUpdate, app_assoc.
    + by eapply read_in_order_app.
  - intros [= <- <-]. exists (appended u). split; [apply stepLog_applyUpdate|].
    by eapply read_in_order_widen.
Qed.

(** C9. The step log only grows at its end: merging an update leaves the old
    log as it is and puts the entries of the update after it, so that over a
    run the log of every earlier state is a prefix of the log of a later one,
    and the entries a run adds are stamped with successive readings of the
    clock, in the order of the log. Every other channel an update names takes
    the value of the update; channels it does not name keep theirs. A run
    started by [invoke] does reach the end of the graph, unless a collaborator
    throws. *)
Theorem step_log_append_only :
  (∀ s u, stepLog (applyUpdate s u) = stepLog s ++ appended u)
  ∧ (∀ s u, NoDup (key_of <$> u) →
       (∀ a, a ∈ u → key_of a ≠ k_stepLog → carries a (applyUpdate s u))
       ∧ (∀ k, k ∉ key_of <$> u → same_channel k s (applyUpdate s u)))
  ∧ (∀ E n s w s' w', superstep E n s w = (Returns s', w') →
       ∃ u, stage E n s w = (Returns u, w') ∧ stepLog s' = stepLog s ++ appended u)
  ∧ (∀ E fuel n s w s' w', run E fuel n s w = (Returns (Some s'), w') →
       stepLog s `prefix_of` stepLog s'
       ∧ ∃ new, stepLog s' = stepLog s ++ new
                ∧ read_in_order E (tick w) new (tick w'))
  ∧ (∀ E vuln w, (invoke E vuln w).1 ≠ Returns None).
Proof.
  split_and!.
  - apply stepLog_applyUpdate.
  - intros s u Hnd. split; [|intros k; apply same_channel_update].
    revert s. induction u as [|a0 u IH]; intros s a Hin Hk.
    { by apply elem_of_nil in Hin. }
    rewrite fmap_cons in Hnd. apply NoDup_cons in Hnd as [Hfresh Hnd].
    apply elem_of_cons in Hin as [->|Hin].
    + apply (carries_kept_update u); [done..|]. by apply carries_apply_assign.
    + by apply (IH Hnd).
  - intros E n s w s' w' (u & Hst & ->)%superstep_update.
    exists u. split; [done|]. apply stepLog_applyUpdate.
  - intros E fuel n s w s' w' Hrun. split.
    + by eapply run_log_prefix.
    + by eapply run_read_in_order.
  - intros E vuln w. apply run_enough_fuel. simpl. lia.
Qed.

Lemma step_log_append_only_witness :
  NoDup (key_of <$> [set_status failed; set_error "boom"; set_stepLog []])
  ∧ status (applyUpdate (initial_state sampleCodeVuln)
              [set_status failed; set_error "boom"; set_stepLog []]) = failed.
Proof.
  assert (NoDup (key_of <$> [set_status failed; set_error "boom"; set_stepLog []]))
    as Hnd by (apply (bool_decide_unpack _); vm_compute; exact I).
  split; [exact Hnd|].
  refine (proj1 (proj1 (proj2 step_log_append_only) (initial_state sampleCodeVuln)
                  [set_status failed; set_error "boom"; set_stepLog []] Hnd)
            (set_status failed) _ _).
  - apply list_elem_of_here.
  - done.
Defined.

(** * Properties of the stages and of the graph *)

Lemma truthy_spec (o : option string) :
  Js.truthy o = true ↔ ∃ x, o = Some x ∧ x ≠ EmptyString.
Proof.
  destruct o as [x|]; simpl.
  - unfold Js.truthy_string. rewrite negb_true_iff.
    destruct (String.eqb_spec x EmptyString) as [->|Hne]; split; try done.
    + intros (y & [= <-] & Hy). done.
    + intros _. by exists x.
  - split; [done|]. by intros (x & ? & _).
Qed.

Lemma not_truthy_spec (o : option string) :
  Js.truthy o = false ↔ o = None ∨ o = Some EmptyString.
Proof.
  destruct o as [x|]; simpl.
  - unfold Js.truthy_string. rewrite negb_false_iff.
    destruct (String.eqb_spec x EmptyString) as [->|Hne]; split; try done.
    + by right.
    + intros [?|[= ?]]; done.
  - split; [by left|done].
Qed.

Lemma isOsPkg_spec vuln : isOsPkg vuln = true ↔ os_package_signal vuln.
Proof.
  unfold isOsPkg, os_package_signal.
  rewrite !andb_true_iff, !negb_true_iff, String.eqb_eq, truthy_spec, not_truthy_spec.
  split.
  - intros [[[Hs Hf] Hi] _]. done.
  - intros (Hs & Hi & Hf). split_and!; try done.
    by destruct Hf as [-> | ->].
Qed.

(** C8, as the code has it. When the answer of the classification
    collaborator cannot be parsed, the vulnerability is classified as
    [container] if it was reported by trivy, carries a non-empty image name and
    carries no (or an empty) file path, and as [code] in every other case; the
    classify stage returns this category. *)
Theorem fallback_classification E state w reply :
  llm_classify E (vulnerability state) = Returns reply →
  parse_reply reply = Unparseable →
  let vuln := vulnerability state in
  (os_package_signal vuln → (classify_reply vuln reply).1 = container)
  ∧ (¬ os_package_signal vuln → (classify_reply vuln reply).1 = code)
  ∧ ∃ reason entry w',
      classifyVuln E state w
      = (Returns [set_category (Some (classify_reply vuln reply).1);
                  set_classificationReason reason;
                  set_status classifying; set_stepLog [entry]], w').
Proof.
  intros Hllm Hparse vuln. unfold classify_reply. rewrite Hparse.
  unfold classify_fallback. simpl. split_and!.
  - intros Hsig%isOsPkg_spec. by rewrite Hsig.
  - intros Hsig. destruct (isOsPkg vuln) eqn:Hos; [|done].
    by apply isOsPkg_spec in Hos.
  - unfold classifyVuln, bind, lift. rewrite Hllm. unfold classify_reply.
    rewrite Hparse. unfold classify_fallback. simpl. eauto.
Qed.

Lemma fallback_classification_witness :
  llm_classify plainCollaborators (vulnerability (initial_state sampleContainerVuln))
    = Returns not_json
  ∧ parse_reply (not_json (A := ClassifyAnswer)) = Unparseable
  ∧ os_package_signal sampleContainerVuln
  ∧ (classify_reply sampleContainerVuln not_json).1 = container.
Proof.
  assert (os_package_signal sampleContainerVuln) as Hsig.
  { split; [reflexivity|]. split; [|by left]. eexists. split; [reflexivity|done]. }
  split; [reflexivity|]. split; [reflexivity|]. split; [exact Hsig|].
  exact (proj1 (fallback_classification plainCollaborators
                  (initial_state sampleContainerVuln) new_world not_json
                  eq_refl eq_refl) Hsig).
Defined.

(** C8 without the scanner test does not hold: a vulnerability with an image
    name and without a file path that another scanner than trivy reported is
    classified as [code] by the fallback. *)
Lemma fallback_image_of_other_scanner :
  is_Some (imageName grypeImageVuln)
  ∧ filePath grypeImageVuln = None
  ∧ parse_reply (not_json (A := ClassifyAnswer)) = Unparseable
  ∧ (classify_reply grypeImageVuln not_json).1 = code
  ∧ (classify_reply grypeImageVuln not_json).1 ≠ container.
Proof. split_and!; try done; by eexists. Qed.

(** C7. The edges after classify, rebuild-check, retrieval and research follow
    the table: container goes from classify to the rebuild check and code to
    retrieval; a rebuild that would fix goes to tag-dispatch and one that would
    not to retrieval; an applicable fix goes to tag-dispatch for container and
    to create-pr for code, none to research; research goes to tag-dispatch for
    container and to create-pr for code. The edges read the state after the
    update of the stage was merged, and only its category, rebuild verdict and
    applicability: what classify, rebuild-check and retrieval have just written
    decides, whatever these channels held before. *)
Theorem routing_table state :
  (category state = Some container →
     next_node n_classifyVuln state = Some n_tryRebuild)
  ∧ (category state = Some code → next_node n_classifyVuln state = Some n_searchRAG)
  ∧ (rebuildWouldFix state = Some true →
     next_node n_tryRebuild state = Some n_createTagWorkflow)
  ∧ (rebuildWouldFix state = Some false →
     next_node n_tryRebuild state = Some n_searchRAG)
  ∧ (ragFixApplicable state = true → category state = Some container →
     next_node n_searchRAG state = Some n_createTagWorkflow)
  ∧ (ragFixApplicable state = true → category state = Some code →
     next_node n_searchRAG state = Some n_createPR)
  ∧ (ragFixApplicable state = false →
     next_node n_searchRAG state = Some n_researchFix)
  ∧ (category state = Some container →
     next_node n_researchFix state = Some n_createTagWorkflow)
  ∧ (category state = Some code → next_node n_researchFix state = Some n_createPR)
  ∧ (∀ n other, n ∈ [n_classifyVuln; n_tryRebuild; n_searchRAG; n_researchFix] →
       category other = category state →
       rebuildWouldFix other = rebuildWouldFix state →
       ragFixApplicable other = ragFixApplicable state →
       next_node n other = next_node n state)
  ∧ (∀ E w u w' before, classifyVuln E state w = (Returns u, w') →
       ∃ c, set_category (Some c) ∈ u
            ∧ category (applyUpdate before u) = Some c
            ∧ next_node n_classifyVuln (applyUpdate before u)
              = Some (if decide (c = container) then n_tryRebuild else n_searchRAG))
  ∧ (∀ E w u w' before, tryRebuild E state w = (Returns u, w') →
       ∃ b, set_rebuildWouldFix (Some b) ∈ u
            ∧ rebuildWouldFix (applyUpdate before u) = Some b
            ∧ next_node n_tryRebuild (applyUpdate before u)
              = Some (if b then n_createTagWorkflow else n_searchRAG))
  ∧ (∀ E w u w' before, searchRAG E state w = (Returns u, w') →
       ∃ b, set_ragFixApplicable b ∈ u
            ∧ ragFixApplicable (applyUpdate before u) = b
            ∧ category (applyUpdate before u) = category before).
Proof.
  split_and!; simpl;
    unfold after_classifyVuln, after_tryRebuild, after_searchRAG, after_researchFix.
  - by intros ->.
  - by intros ->.
  - by intros ->.
  - by intros ->.
  - by intros -> ->.
  - by intros -> ->.
  - by intros ->.
  - by intros ->.
  - by intros ->.
  - intros n other Hn Hc Hr Ha.
    repeat (apply elem_of_cons in Hn as [->|Hn]); simpl;
      unfold after_classifyVuln, after_tryRebuild, after_searchRAG,
        after_researchFix; rewrite ?Hc, ?Hr, ?Ha; try done.
    by apply elem_of_nil in Hn.
  - intros E w u w' before. unfold classifyVuln, bind, lift.
    destruct (llm_classify E (vulnerability state)) as [reply|err]; [|done].
    destruct (classify_reply (vulnerability state) reply) as [c reason]. simpl.
    intros [= <- <-]. exists c. split_and!; [apply list_elem_of_here|done|].
    simpl. by destruct c.
  - intros E w u w' before. unfold tryRebuild, bind, lift.
    destruct (llm_rebuild E (vulnerability state)) as [reply|err]; [|done].
    destruct (rebuild_reply reply) as [b reason]. simpl.
    intros [= <- <-]. exists b. split_and!; [apply list_elem_of_here|done|].
    simpl. by destruct b.
  - intros E w u w' before. unfold searchRAG, bind, try_catch, searchFixes, lift.
    destruct (search_index E _) as [found|err]; simpl;
      intros [= <- <-]; eexists;
      (split_and!; [apply list_elem_of_further, list_elem_of_here|done|done]).
Qed.

Lemma routing_table_witness :
  category (applyUpdate (initial_state sampleContainerVuln)
              [set_category (Some container)]) = Some container
  ∧ next_node n_classifyVuln
      (applyUpdate (initial_state sampleContainerVuln) [set_category (Some container)])
    = Some n_tryRebuild.
Proof.
  split; [reflexivity|].
  exact (proj1 (routing_table
                  (applyUpdate (initial_state sampleContainerVuln)
                     [set_category (Some container)])) eq_refl).
Defined.

(** C10. When the write to the fix index throws, the store-fix stage still
    returns status [resolved], with one step-log entry of status [failed] that
    carries the error; nothing was added to the index, and the graph ends
    after the stage. A state with status [resolved] thus does not tell that
    the fix was stored. *)
Theorem store_failure_still_resolved E state w err :
  upload_fix E (stored_fix state (uuidv4 E (uuids w)) (clock E (tick w))) = Throws err →
  let r := storeInRAG E state w in
  ∃ entry,
    r.1 = Returns [set_status resolved; set_stepLog [entry]]
    ∧ node entry = "storeInRAG"
    ∧ message entry = "Fix applied but RAG storage failed: " +:+ err
    ∧ entry_status entry = step_failed
    ∧ fixIndex r.2 = fixIndex w
    ∧ status (applyUpdate state [set_status resolved; set_stepLog [entry]]) = resolved
    ∧ next_node n_storeInRAG
        (applyUpdate state [set_status resolved; set_stepLog [entry]]) = None.
Proof.
  intros Hup r. subst r.
  unfold storeInRAG, bind, try_catch, fresh_uuid, new_Date, storeFix. simpl.
  rewrite Hup. simpl. eexists. split_and!; done.
Qed.

Lemma store_failure_still_resolved_witness :
  upload_fix failingIndexCollaborators
    (stored_fix (initial_state sampleCodeVuln)
       (uuidv4 failingIndexCollaborators (uuids new_world))
       (clock failingIndexCollaborators (tick new_world)))
  = Throws "index unavailable"
  ∧ ∃ entry,
      (storeInRAG failingIndexCollaborators (initial_state sampleCodeVuln) new_world).1
      = Returns [set_status resolved; set_stepLog [entry]]
      ∧ entry_status entry = step_failed
      ∧ fixIndex
          (storeInRAG failingIndexCollaborators (initial_state sampleCodeVuln)
             new_world).2 = [].
Proof.
  split; [reflexivity|].
  destruct (store_failure_still_resolved failingIndexCollaborators
              (initial_state sampleCodeVuln) new_world "index unavailable" eq_refl)
    as (entry & Hret & _ & _ & Hst & Hidx & _).
  exists entry. auto.
Defined.

(** C6. With a scan payload the verify stage sets [rebuildVerified] and sets
    [rebuildSuccessful] iff the build succeeded and no residual finding has the
    target CVE; without a payload it still returns, with both flags false and
    an error. *)
Theorem verify_verdict E state w :
  (∀ scan, rebuildScanResult state = Some scan →
     ∃ u w', verifyRebuildResult E state w = (Returns u, w')
       ∧ rebuildVerified (applyUpdate state u) = true
       ∧ (rebuildSuccessful (applyUpdate state u) = true
          ↔ buildSuccess scan = true
            ∧ ∀ f, f ∈ vulnerabilities (scanResults scan) →
                   f_cveId f ≠ cveId (vulnerability state)))
  ∧ (rebuildScanResult state = None →
     ∃ u w', verifyRebuildResult E state w = (Returns u, w')
       ∧ rebuildVerified (applyUpdate state u) = false
       ∧ rebuildSuccessful (applyUpdate state u) = false
       ∧ error (applyUpdate state u) ≠ EmptyString).
Proof.
  split.
  - intros scan Hscan. unfold verifyRebuildResult. rewrite Hscan. unfold verify.
    assert (cve_remains (cveId (vulnerability state)) scan = false
            ↔ ∀ f, f ∈ vulnerabilities (scanResults scan) →
                   f_cveId f ≠ cveId (vulnerability state)) as Hclean.
    { unfold cve_remains. rewrite <- not_true_iff_false, existsb_exists.
      split.
      - intros Hno f Hin Heq. apply Hno. exists f.
        split; [by apply list_elem_of_In|]. by apply String.eqb_eq.
      - intros Hall (f & Hin%list_elem_of_In & Heq%String.eqb_eq). by eapply Hall. }
    destruct (buildSuccess scan), (cve_remains (cveId (vulnerability state)) scan);
      simpl; unfold bind, logEntry, new_Date, bind, ret; simpl;
      eexists _, _; (split; [reflexivity|]); simpl; (split; [done|]).
    + split; [done|]. intros [_ Hall]. by apply Hclean in Hall.
    + split; [|done]. intros _. split; [done|]. by apply Hclean.
    + split; [done|]. by intros [? _].
    + split; [done|]. by intros [? _].
  - intros Hnone. unfold verifyRebuildResult. rewrite Hnone.
    unfold bind, logEntry, new_Date, bind, ret. simpl.
    eexists _, _. split; [reflexivity|]. done.
Qed.

Example verify_clean : verify "CVE-X" (scan_with true []) = (true, true).
Proof. reflexivity. Qed.

Example verify_unrelated_finding :
  verify "CVE-X" (scan_with true ["CVE-2024-9999"]) = (true, true).
Proof. reflexivity. Qed.

Example verify_cve_remains : verify "CVE-X" (scan_with true ["CVE-X"]) = (true, false).
Proof. reflexivity. Qed.

Example verify_build_failed : verify "CVE-X" (scan_with false []) = (true, false).
Proof. reflexivity. Qed.

Lemma verify_verdict_witness :
  rebuildScanResult
    (applyUpdate (initial_state sampleContainerVuln)
       [set_rebuildScanResult (Some sampleRebuildScanResult)])
  = Some sampleRebuildScanResult
  ∧ ∃ u w',
      verifyRebuildResult plainCollaborators
        (applyUpdate (initial_state sampleContainerVuln)
           [set_rebuildScanResult (Some sampleRebuildScanResult)]) new_world
      = (Returns u, w')
      ∧ rebuildVerified
          (applyUpdate
             (applyUpdate (initial_state sampleContainerVuln)
                [set_rebuildScanResult (Some sampleRebuildScanResult)]) u) = true.
Proof.
  split; [reflexivity|].
  destruct (proj1 (verify_verdict plainCollaborators
                     (applyUpdate (initial_state sampleContainerVuln)
                        [set_rebuildScanResult (Some sampleRebuildScanResult)])
                     new_world) sampleRebuildScanResult eq_refl)
    as (u & w' & Hrun & Hver & _).
  exists u, w'. auto.
Defined.

(** C1, on the code. The edge after create-pr leads to store-fix whatever the
    stage returned, and the edge after tag-dispatch to verify. On the sample
    code vulnerability, with no stored fix and a research answer without a
    patch, create-pr returns status [failed]; the run goes on to store-fix,
    writes a fix to the index and ends with status [resolved]. *)
Theorem failed_stage_does_not_halt :
  (∀ state, next_node n_createPR state = Some n_storeInRAG)
  ∧ (∀ state, next_node n_createTagWorkflow state = Some n_verifyRebuildResult)
  ∧ let r := invoke plainCollaborators sampleCodeVuln new_world in
    ∃ final,
      r.1 = Returns (Some final)
      ∧ node <$> stepLog final
        = ["classifyVuln"; "searchRAG"; "researchFix"; "createPR"; "storeInRAG"]
      ∧ entry_status <$> stepLog final
        = [step_completed; step_completed; step_completed; step_failed;
           step_completed]
      ∧ error final = "No patch content generated — cannot create PR."
      ∧ status final = resolved
      ∧ pullRequests r.2 = []
      ∧ length (fixIndex r.2) = 1.
Proof.
  split; [done|]. split; [done|].
  eexists. split; [vm_compute; reflexivity|]. split_and!; reflexivity.
Qed.

Lemma createTagWorkflowNode_world E state w :
  let r := createTagWorkflowNode E state w in
  rebuilds r.2 = rebuilds w
  ∧ (dispatches r.2 = dispatches w
     ∨ ∃ d, dispatches r.2 = dispatches w ++ [d]
            ∧ tag (inputs d) = tag_name (vulnerability state) (clock E (tick w))
            ∧ vuln_id (inputs d) = None
            ∧ callback_url (inputs d) = None).
Proof.
  unfold createTagWorkflowNode, createApprovalTagWorkflow, create_tag,
    createWorkflowDispatch, bind, try_catch, new_Date, logEntry, bind, new_Date,
    ret. simpl.
  destruct (github_tag E _) as [branch|err]; simpl; [|by auto].
  destruct (github_dispatch E _) as [[]|err]; simpl; [|by auto].
  split; [done|]. right. eexists. split; [done|]. done.
Qed.

(** C2, on the code. The tag-dispatch stage never touches the pending-rebuild
    store, and the dispatch it sends carries neither a [vuln_id] nor a
    [callback_url]; the edge after it leads straight to verify. On the sample
    container vulnerability, whose rebuild check says that a rebuild fixes it,
    the tag and dispatch succeed, no wait is registered, and verify runs at
    once, without a scan payload. *)
Theorem tag_dispatch_registers_nothing :
  (∀ E state w,
     let r := createTagWorkflowNode E state w in
     rebuilds r.2 = rebuilds w
     ∧ (dispatches r.2 = dispatches w
        ∨ ∃ d, dispatches r.2 = dispatches w ++ [d]
               ∧ tag (inputs d) = tag_name (vulnerability state) (clock E (tick w))
               ∧ vuln_id (inputs d) = None
               ∧ callback_url (inputs d) = None))
  ∧ (∀ state, next_node n_createTagWorkflow state = Some n_verifyRebuildResult)
  ∧ let r := invoke rebuildCollaborators sampleContainerVuln new_world in
    ∃ final,
      r.1 = Returns (Some final)
      ∧ node <$> stepLog final
        = ["classifyVuln"; "tryRebuild"; "createTagWorkflow"; "verifyRebuildResult"]
      ∧ entry_status <$> stepLog final
        = [step_completed; step_completed; step_completed; step_failed]
      ∧ tags r.2 = ["rebuild/cve-2023-4911-2024-02-09T12-00-00"]
      ∧ (vuln_id ∘ inputs) <$> dispatches r.2 = [None]
      ∧ (callback_url ∘ inputs) <$> dispatches r.2 = [None]
      ∧ rebuilds r.2 = PendingRebuilds.empty_store
      ∧ PendingRebuilds.listPendingRebuilds (rebuilds r.2) = []
      ∧ rebuildScanResult final = None
      ∧ status final = failed.
Proof.
  split; [apply createTagWorkflowNode_world|]. split; [done|].
  eexists. split; [vm_compute; reflexivity|]. split_and!; reflexivity.
Qed.

(** * Further properties of the pending-rebuild store *)

Module PendingRebuildsMore.
Import PendingRebuilds PendingRebuildsSpec StoreEvents.

Lemma settle_waiting_inv p o ps q :
  settle p o ps !! q = Some None → ps !! q = Some None ∧ p ≠ q.
Proof.
  intros Hq. destruct (decide (p = q)) as [->|Hne].
  - exfalso. revert Hq. unfold settle.
    destruct (ps !! q) as [[x|]|] eqn:Hx; rewrite ?Hx, ?lookup_insert_eq; done.
  - by rewrite settle_other in Hq.
Qed.

Lemma nextPromise_supersede v s : nextPromise (supersede v s) = nextPromise s.
Proof. unfold supersede. by destruct (pending s !! v). Qed.

Lemma settled_supersede v s p o :
  promises s !! p = Some (Some o) → promises (supersede v s) !! p = Some (Some o).
Proof.
  intros Hp. unfold supersede. destruct (pending s !! v); [|done].
  simpl. by apply settle_settled.
Qed.

(** X1. Once a waiter is completed, with a scan result or with an error, no
    later registration, callback or timer changes what it was completed
    with. *)
Theorem settlement_is_final s e p o :
  reachable s → promises s !! p = Some (Some o) →
  promises (step s e) !! p = Some (Some o).
Proof.
  intros Hr Hp. pose proof (reachable_consistent s Hr) as C.
  assert (p < nextPromise s) as Hlt by (apply promise_bound; eauto).
  destruct e as [params now|v result|t]; simpl.
  - rewrite lookup_insert_ne by (rewrite nextPromise_supersede; lia).
    by apply settled_supersede.
  - unfold resolvePendingRebuild. destruct (pending s !! v); [|done].
    simpl. by apply settle_settled.
  - unfold fireTimer. destruct (timers s !! t) as [tm|]; [|done].
    unfold timeout_callback. simpl. destruct (pending s !! t_vulnId tm); [|done].
    simpl. by apply settle_settled.
Qed.

Lemma settlement_is_final_witness :
  reachable (step sampleStore (ev_fire 0))
  ∧ promises (step (step sampleStore (ev_fire 0))
                (ev_resolve "test-vuln-container-001" sampleRebuildScanResult)) !! 0
    = Some (Some (RejectedWith "Rebuild timed out after 1800s for CVE-2023-4911")).
Proof.
  assert (reachable (step sampleStore (ev_fire 0))) as Hr.
  { apply reachable_step.
    apply (reachable_step empty_store
             (ev_register sampleRegistration (sample_instant 0))), reachable_empty. }
  split; [exact Hr|].
  apply (settlement_is_final _ _ _ _ Hr). vm_compute. reflexivity.
Defined.

(** X2. An event about one vulnId leaves the wait of every other vulnId as it
    is: the entry stays in the map, its waiter stays incomplete and its timer
    stays armed. *)
Theorem other_waits_untouched s ev v' e' :
  reachable s → pending s !! v' = Some e' → ¬ targets s ev v' →
  pending (step s ev) !! v' = Some e'
  ∧ promises (step s ev) !! promise e' = Some None
  ∧ timers (step s ev) !! timeoutId e' = timers s !! timeoutId e'
  ∧ is_Some (timers (step s ev) !! timeoutId e').
Proof.
  intros Hr He' Hnot. pose proof (reachable_consistent s Hr) as C.
  pose proof (entry_waiting s C _ _ He') as Hw.
  destruct (entry_timer s C _ _ He') as (tm' & Htm' & Hv' & _).
  assert (promise e' < nextPromise s) as Hlp by (apply promise_bound; eauto).
  assert (timeoutId e' < nextTimer s) as Hlt by (apply timer_bound; eauto).
  assert (∀ v e, pending s !! v = Some e → v ≠ v' →
            promise e ≠ promise e' ∧ timeoutId e ≠ timeoutId e') as Hother.
  { intros v e He Hne. split.
    - intros Heq. apply Hne. by eapply (entry_promise_inj s C v v').
    - intros Heq. destruct (entry_timer s C _ _ He) as (tm & Htm & Hv & _).
      rewrite Heq in Htm. congruence. }
  destruct ev as [params now|v result|t]; simpl in *.
  - unfold supersede.
    destruct (pending s !! rp_vulnId params) as [existing|] eqn:Hex; simpl.
    + destruct (Hother _ _ Hex Hnot) as [Hp Ht].
      rewrite !lookup_insert_ne by (done || lia).
      rewrite lookup_delete_ne by done. rewrite settle_other by done.
      rewrite lookup_delete_ne by done. rewrite Htm'. eauto.
    + rewrite !lookup_insert_ne by (done || lia). rewrite Htm'. eauto.
  - unfold resolvePendingRebuild.
    destruct (pending s !! v) as [entry|] eqn:Hex; simpl; [|rewrite Htm'; eauto].
    destruct (Hother _ _ Hex Hnot) as [Hp Ht].
    rewrite lookup_delete_ne by done. rewrite settle_other by done.
    rewrite lookup_delete_ne by done. rewrite Htm'. eauto.
  - unfold fireTimer. destruct (timers s !! t) as [tm|] eqn:Htm;
      [|rewrite Htm'; eauto].
    destruct (armed_timer_entry s t tm C Htm) as (e & He & <- & Hp & Hc).
    assert (t_vulnId tm ≠ v') as Hne by (intros Heq; apply Hnot; eauto).
    destruct (Hother _ _ He Hne) as [Hpne Htne].
    unfold timeout_callback. simpl. rewrite He. simpl.
    rewrite lookup_delete_ne by done. rewrite settle_other by congruence.
    rewrite lookup_delete_ne by done. rewrite Htm'. eauto.
Qed.

Lemma reachable_sampleStore : reachable sampleStore.
Proof.
  apply (reachable_step empty_store
           (ev_register sampleRegistration (sample_instant 0))), reachable_empty.
Qed.

Lemma reachable_twoWaitsStore : reachable twoWaitsStore.
Proof.
  apply (reachable_step sampleStore (ev_register otherRegistration (sample_instant 1))),
    reachable_sampleStore.
Qed.

Lemma other_waits_untouched_witness :
  reachable twoWaitsStore
  ∧ ∃ e', pending twoWaitsStore !! "test-vuln-code-001" = Some e'
          ∧ pending (step twoWaitsStore
                       (ev_resolve "test-vuln-container-001" sampleRebuildScanResult))
              !! "test-vuln-code-001" = Some e'.
Proof.
  split; [apply reachable_twoWaitsStore|].
  exists {| vulnId := "test-vuln-code-001"; p_cveId := "CVE-2024-29041";
            p_repoOwner := "test-org"; p_repoName := "test-repo";
            tagName := "rebuild-cve-2024-29041-2024-02-09";
            p_createdAt := iso (sample_instant 1); promise := 1; timeoutId := 1 |}.
  assert (pending twoWaitsStore !! "test-vuln-code-001"
          = Some {| vulnId := "test-vuln-code-001"; p_cveId := "CVE-2024-29041";
                    p_repoOwner := "test-org"; p_repoName := "test-repo";
                    tagName := "rebuild-cve-2024-29041-2024-02-09";
                    p_createdAt := iso (sample_instant 1); promise := 1;
                    timeoutId := 1 |}) as He by (vm_compute; reflexivity).
  split; [exact He|].
  refine (proj1 (other_waits_untouched twoWaitsStore
                   (ev_resolve "test-vuln-container-001" sampleRebuildScanResult)
                   "test-vuln-code-001" _ reachable_twoWaitsStore He _)).
  simpl. discriminate.
Defined.

Lemma orphan_free_remove s s' v e o :
  consistent s → orphan_free s → pending s !! v = Some e →
  pending s' = delete v (pending s) →
  promises s' = settle (promise e) o (promises s) →
  orphan_free s'.
Proof.
  intros C Hfree He Hp Hs p. rewrite Hp, Hs.
  intros [Hwait Hne]%settle_waiting_inv.
  destruct (Hfree p Hwait) as (v0 & e0 & H0 & <-).
  exists v0, e0. split; [|done]. rewrite lookup_delete_ne; [done|].
  intros <-. congruence.
Qed.

Lemma orphan_free_supersede v s :
  consistent s → orphan_free s → orphan_free (supersede v s).
Proof.
  intros C Hfree. unfold supersede.
  destruct (pending s !! v) as [e|] eqn:He; [|done].
  by eapply (orphan_free_remove s _ v e).
Qed.

Lemma reachable_orphan_free s : reachable s → orphan_free s.
Proof.
  induction 1 as [|s ev Hr IH].
  { intros p Hp. simpl in Hp. by rewrite lookup_empty in Hp. }
  pose proof (reachable_consistent s Hr) as C.
  destruct ev as [params now|v result|t]; simpl.
  - pose proof (orphan_free_supersede (rp_vulnId params) s C IH) as Hfree.
    pose proof (supersede_absent (rp_vulnId params) s) as Habs.
    intros p. simpl.
    intros [[<- _]|[Hne Hwait]]%lookup_insert_Some.
    + eexists _, _. split; [apply lookup_insert_eq|done].
    + destruct (Hfree p Hwait) as (v0 & e0 & H0 & <-).
      exists v0, e0. split; [|done]. rewrite lookup_insert_ne; [done|].
      intros <-. congruence.
  - unfold resolvePendingRebuild.
    destruct (pending s !! v) as [e|] eqn:He; [|done].
    by eapply (orphan_free_remove s _ v e).
  - unfold fireTimer. destruct (timers s !! t) as [tm|] eqn:Htm; [|done].
    destruct (armed_timer_entry s t tm C Htm) as (e & He & <- & Hp & Hc).
    unfold timeout_callback. simpl. rewrite He.
    eapply (orphan_free_remove s _ (t_vulnId tm) e); try done. simpl. by rewrite Hp.
Qed.

(** X3. No waiter is left behind: in every store the operations produce, a
    promise that is not yet completed belongs to an entry of the map, and the
    timer of that entry is armed, so that the promise is completed by a
    callback, by a superseding registration or, at the latest, by the
    timeout. *)
Theorem no_waiter_left_behind s p :
  reachable s → promises s !! p = Some None →
  ∃ v e tm, pending s !! v = Some e ∧ promise e = p
            ∧ timers s !! timeoutId e = Some tm
            ∧ t_vulnId tm = v ∧ t_promise tm = p.
Proof.
  intros Hr Hp. pose proof (reachable_consistent s Hr) as C.
  destruct (reachable_orphan_free s Hr p Hp) as (v & e & He & <-).
  destruct (entry_timer s C v e He) as (tm & Htm & Hv & Hpr & _).
  by exists v, e, tm.
Qed.

Lemma no_waiter_left_behind_witness :
  reachable twoWaitsStore ∧ promises twoWaitsStore !! 1 = Some None
  ∧ ∃ v e tm, pending twoWaitsStore !! v = Some e ∧ promise e = 1
              ∧ timers twoWaitsStore !! timeoutId e = Some tm
              ∧ t_vulnId tm = v ∧ t_promise tm = 1.
Proof.
  assert (promises twoWaitsStore !! 1 = Some None) as Hp by (vm_compute; reflexivity).
  split; [apply reachable_twoWaitsStore|]. split; [exact Hp|].
  exact (no_waiter_left_behind twoWaitsStore 1 reachable_twoWaitsStore Hp).
Defined.

(** X4. Timers do not leak: in every store the operations produce there are as
    many armed timers as entries in the map. *)
Theorem timers_match_entries s :
  reachable s → size (timers s) = size (pending s).
Proof.
  induction 1 as [|s ev Hr IH]; [done|].
  pose proof (reachable_consistent s Hr) as C.
  assert (∀ v e, pending s !! v = Some e →
            size (delete (timeoutId e) (timers s)) = size (delete v (pending s)))
    as Hremove.
  { intros v e He. destruct (entry_timer s C v e He) as (tm & Htm & _).
    pose proof (map_size_delete_Some (timeoutId e) (timers s) (mk_is_Some _ _ Htm)) as Ht.
    pose proof (map_size_delete_Some v (pending s) (mk_is_Some _ _ He)) as Hp.
    lia. }
  destruct ev as [params now|v result|t]; simpl.
  - pose proof (consistent_supersede (rp_vulnId params) s C) as C1.
    pose proof (supersede_absent (rp_vulnId params) s) as Habs.
    assert (size (timers (supersede (rp_vulnId params) s))
            = size (pending (supersede (rp_vulnId params) s))) as IH1.
    { unfold supersede. destruct (pending s !! rp_vulnId params) as [e|] eqn:He;
        [|done]. simpl. by apply Hremove. }
    rewrite map_size_insert_None, map_size_insert_None; [lia|done|].
    destruct (timers (supersede (rp_vulnId params) s)
                !! nextTimer (supersede (rp_vulnId params) s)) eqn:Hx; [|done].
    assert (nextTimer (supersede (rp_vulnId params) s)
            < nextTimer (supersede (rp_vulnId params) s))
      by (apply timer_bound; eauto). lia.
  - unfold resolvePendingRebuild.
    destruct (pending s !! v) as [e|] eqn:He; [|done]. simpl. by apply Hremove.
  - unfold fireTimer. destruct (timers s !! t) as [tm|] eqn:Htm; [|done].
    destruct (armed_timer_entry s t tm C Htm) as (e & He & <- & Hp & Hc).
    unfold timeout_callback. simpl. rewrite He. simpl. by apply Hremove.
Qed.

Lemma timers_match_entries_witness :
  reachable twoWaitsStore ∧ size (timers twoWaitsStore) = 2
  ∧ size (timers twoWaitsStore) = size (pending twoWaitsStore).
Proof.
  split; [apply reachable_twoWaitsStore|]. split; [vm_compute; reflexivity|].
  exact (timers_match_entries twoWaitsStore reachable_twoWaitsStore).
Defined.

(** X5. Register, then the callback: for a vulnId without a pending entry,
    the waiter that [registerPendingRebuild] returns is incomplete until
    [resolvePendingRebuild] is called for the vulnId, which completes it with
    the scan result and puts the map and the armed timers back to what they
    were before the registration. *)
Theorem register_then_resolve s params now result :
  reachable s → pending s !! rp_vulnId params = None →
  let r := registerPendingRebuild params now s in
  let r' := resolvePendingRebuild (rp_vulnId params) result r.2 in
  promises r.2 !! r.1 = Some None
  ∧ r'.1 = true
  ∧ promises r'.2 !! r.1 = Some (Some (Fulfilled result))
  ∧ pending r'.2 = pending s
  ∧ timers r'.2 = timers s.
Proof.
  intros Hr Hnone r r'. pose proof (reachable_consistent s Hr) as C.
  assert (timers s !! nextTimer s = None) as Hft.
  { destruct (timers s !! nextTimer s) eqn:Hx; [|done].
    assert (nextTimer s < nextTimer s) by (apply timer_bound; eauto). lia. }
  subst r r'. unfold registerPendingRebuild, supersede. rewrite Hnone. simpl.
  unfold resolvePendingRebuild. simpl. rewrite !lookup_insert_eq. simpl.
  split_and!.
  - done.
  - done.
  - apply settle_waiting, lookup_insert_eq.
  - rewrite delete_insert_eq. by apply delete_id.
  - rewrite delete_insert_eq. by apply delete_id.
Qed.

Lemma register_then_resolve_witness :
  reachable sampleStore
  ∧ pending sampleStore !! rp_vulnId otherRegistration = None
  ∧ pending (resolvePendingRebuild (rp_vulnId otherRegistration)
               sampleRebuildScanResult
               (registerPendingRebuild otherRegistration (sample_instant 1)
                  sampleStore).2).2
    = pending sampleStore.
Proof.
  assert (pending sampleStore !! rp_vulnId otherRegistration = None) as Hn
    by (vm_compute; reflexivity).
  split; [apply reachable_sampleStore|]. split; [exact Hn|].
  exact (proj1 (proj2 (proj2 (proj2
    (register_then_resolve sampleStore otherRegistration (sample_instant 1)
       sampleRebuildScanResult reachable_sampleStore Hn))))).
Defined.

Lemma snapshot_keys (m : gmap string PendingRebuild) :
  (∀ k e, m !! k = Some e → vulnId e = k) →
  i_vulnId <$> ((info ∘ snd) <$> map_to_list m) = (map_to_list m).*1.
Proof.
  intros Hkey. rewrite <- list_fmap_compose. apply list_fmap_ext.
  intros i [k e] Hin%list_elem_of_lookup_2%elem_of_map_to_list. simpl.
  by apply Hkey.
Qed.

(** X6. The diagnostic snapshot lists every pending vulnId exactly once: its
    vulnIds are pairwise distinct, they are the keys of the map, and there are
    as many records as entries. *)
Theorem snapshot_one_record_per_vulnId s :
  reachable s →
  NoDup (i_vulnId <$> listPendingRebuilds s)
  ∧ length (listPendingRebuilds s) = size (pending s)
  ∧ ∀ v, v ∈ i_vulnId <$> listPendingRebuilds s ↔ is_Some (pending s !! v).
Proof.
  intros Hr. pose proof (reachable_consistent s Hr) as C.
  unfold listPendingRebuilds. rewrite snapshot_keys by apply (entry_key s C).
  split_and!.
  - apply NoDup_fst_map_to_list.
  - by rewrite length_fmap, length_map_to_list.
  - intros v. rewrite list_elem_of_fmap. split.
    + intros ([k e] & -> & Hin%elem_of_map_to_list). by eexists.
    + intros [e He]. exists (v, e). split; [done|]. by apply elem_of_map_to_list.
Qed.

Lemma snapshot_one_record_per_vulnId_witness :
  reachable twoWaitsStore ∧ length (listPendingRebuilds twoWaitsStore) = 2
  ∧ NoDup (i_vulnId <$> listPendingRebuilds twoWaitsStore).
Proof.
  split; [apply reachable_twoWaitsStore|]. split; [vm_compute; reflexivity|].
  exact (proj1 (snapshot_one_record_per_vulnId twoWaitsStore reachable_twoWaitsStore)).
Defined.

(** X7. A callback that arrives after the timeout is dropped: once the timer
    of an entry has fired, [resolvePendingRebuild] for its vulnId answers false
    and changes nothing, and the waiter keeps the timeout error. *)
Theorem callback_after_timeout_dropped s t tm result :
  reachable s → timers s !! t = Some tm →
  let s' := fireTimer t s in
  resolvePendingRebuild (t_vulnId tm) result s' = (false, s')
  ∧ promises s' !! t_promise tm
    = Some (Some (RejectedWith (timeout_message (t_cveId tm)))).
Proof.
  intros Hr Htm s'. pose proof (reachable_consistent s Hr) as C.
  destruct (armed_timer_entry s t tm C Htm) as (e & He & <- & Hp & Hc).
  subst s'. unfold fireTimer. rewrite Htm. unfold timeout_callback. simpl.
  rewrite He. unfold resolvePendingRebuild. simpl. rewrite lookup_delete_eq.
  split; [done|]. apply settle_waiting. rewrite <- Hp. by eapply entry_waiting.
Qed.

Lemma callback_after_timeout_dropped_witness :
  reachable sampleStore
  ∧ (resolvePendingRebuild "test-vuln-container-001" sampleRebuildScanResult
       (fireTimer 0 sampleStore)).1 = false.
Proof.
  split; [apply reachable_sampleStore|].
  refine (f_equal fst (proj1 (callback_after_timeout_dropped sampleStore 0
            {| due := 1707481800000%N; t_vulnId := "test-vuln-container-001";
               t_cveId := "CVE-2023-4911"; t_promise := 0 |}
            sampleRebuildScanResult reachable_sampleStore _))).
  vm_compute. reflexivity.
Defined.

(** X8. The store matches callbacks by vulnId alone. After a registration
    superseded an earlier one for the same vulnId, the next callback for the
    vulnId completes the new waiter, whatever rebuild it reports; the
    superseded waiter keeps its error. *)
Theorem callback_completes_latest_wait s params now existing result :
  reachable s → pending s !! rp_vulnId params = Some existing →
  let r := registerPendingRebuild params now s in
  let r' := resolvePendingRebuild (rp_vulnId params) result r.2 in
  r'.1 = true
  ∧ promises r'.2 !! r.1 = Some (Some (Fulfilled result))
  ∧ promises r'.2 !! promise existing = Some (Some (RejectedWith superseded_message))
  ∧ pending r'.2 !! rp_vulnId params = None.
Proof.
  intros Hr He r r'. pose proof (reachable_consistent s Hr) as C.
  pose proof (entry_waiting s C _ _ He) as Hwait.
  assert (promise existing < nextPromise s) as Hlt by (apply promise_bound; eauto).
  subst r r'. unfold registerPendingRebuild, supersede. rewrite He. simpl.
  unfold resolvePendingRebuild. simpl. rewrite lookup_insert_eq. simpl.
  split_and!.
  - done.
  - apply settle_waiting, lookup_insert_eq.
  - rewrite settle_other by lia. rewrite lookup_insert_ne by lia.
    by apply settle_waiting.
  - apply lookup_delete_eq.
Qed.

Lemma callback_completes_latest_wait_witness :
  reachable sampleStore
  ∧ promises (resolvePendingRebuild (rp_vulnId sampleRegistration)
                sampleRebuildScanResult
                (registerPendingRebuild sampleRegistration (sample_instant 5)
                   sampleStore).2).2 !! 1
    = Some (Some (Fulfilled sampleRebuildScanResult)).
Proof.
  split; [apply reachable_sampleStore|].
  refine (proj1 (proj2 (callback_completes_latest_wait sampleStore sampleRegistration
            (sample_instant 5)
            {| vulnId := "test-vuln-container-001"; p_cveId := "CVE-2023-4911";
               p_repoOwner := "test-org"; p_repoName := "test-repo";
               tagName := "rebuild-cve-2023-4911-2024-02-09";
               p_createdAt := iso (sample_instant 0); promise := 0; timeoutId := 0 |}
            sampleRebuildScanResult reachable_sampleStore _))).
  vm_compute. reflexivity.
Defined.

End PendingRebuildsMore.

(** * Further properties of the stages *)

(** X9. The retrieval stage never fails the run: when the search of the fix
    index throws, the stage still returns, with no results and no applicable
    fix, touches nothing but the clock, and the run goes on to research. *)
Theorem retrieval_failure_leads_to_research E state w err :
  search_index E (cveId (vulnerability state) +:+ " "
                  +:+ packageName (vulnerability state)) = Throws err →
  ∃ entry,
    searchRAG E state w
    = (Returns [set_ragResults []; set_ragFixApplicable false;
                set_status searching_rag; set_stepLog [entry]],
       with_tick w (S (tick w)))
    ∧ message entry = "No known fixes found in RAG database."
    ∧ entry_status entry = step_completed
    ∧ ∀ before,
        next_node n_searchRAG
          (applyUpdate before [set_ragResults []; set_ragFixApplicable false;
                               set_status searching_rag; set_stepLog [entry]])
        = Some n_researchFix.
Proof.
  intros Herr. unfold searchRAG, searchFixes, try_catch, bind, lift, logEntry,
    new_Date, bind, ret. rewrite Herr. simpl. eexists. split_and!; done.
Qed.

Lemma retrieval_failure_leads_to_research_witness :
  search_index failingSearchCollaborators
    (cveId (vulnerability (initial_state sampleCodeVuln)) +:+ " "
     +:+ packageName (vulnerability (initial_state sampleCodeVuln)))
  = Throws "search unavailable"
  ∧ ∃ u, (searchRAG failingSearchCollaborators (initial_state sampleCodeVuln)
            new_world).1 = Returns u.
Proof.
  split; [reflexivity|].
  destruct (retrieval_failure_leads_to_research failingSearchCollaborators
              (initial_state sampleCodeVuln) new_world "search unavailable" eq_refl)
    as (entry & Hrun & _).
  eexists. by rewrite Hrun.
Defined.

(** X10. The create-pr stage never throws and opens at most one pull request.
    Without patch content it fails before GitHub is called; with patch content
    it asks for one pull request that commits the patch to the file path of the
    vulnerability (or to package.json when it has none), and it fails with the
    error of GitHub when that request throws. *)
Theorem create_pr_outcomes E state w :
  let r := createPRNode E state w in
  ∃ entry,
    (patchContent state = EmptyString
     ∧ r.1 = Returns [set_status failed;
                      set_error "No patch content generated — cannot create PR.";
                      set_stepLog [entry]]
     ∧ entry_status entry = step_failed
     ∧ pullRequests r.2 = pullRequests w)
    ∨ (∃ params err,
         patchContent state ≠ EmptyString
         ∧ github_pull_request E params = Throws err
         ∧ r.1 = Returns [set_status failed;
                          set_error ("Failed to create PR: " +:+ err);
                          set_stepLog [entry]]
         ∧ entry_status entry = step_failed
         ∧ pullRequests r.2 = pullRequests w)
    ∨ (∃ params pr,
         patchContent state ≠ EmptyString
         ∧ github_pull_request E params = Returns pr
         ∧ files params
           = [(default "package.json" (filePath (vulnerability state)),
               patchContent state)]
         ∧ r.1 = Returns [set_prUrl (r_prUrl pr); set_status creating_pr;
                          set_stepLog [entry]]
         ∧ entry_status entry = step_completed
         ∧ pullRequests r.2 = pullRequests w ++ [params]).
Proof.
  intros r. subst r. unfold createPRNode, pr_files.
  destruct (patchContent state) as [|c rest] eqn:Hpatch; simpl.
  - eexists. left. unfold bind, logEntry, new_Date, bind, ret. simpl. done.
  - unfold try_catch, bind, createPullRequest.
    match goal with |- context [github_pull_request E ?p] => set (params := p) end.
    destruct (github_pull_request E params) as [pr|err] eqn:Hgh; simpl.
    + eexists. right. right. exists params, pr. split_and!; done.
    + eexists. right. left. exists params, err. split_and!; done.
Qed.






(** X12. A failed workflow dispatch is swallowed. Whenever the tag is created,
    [createApprovalTagWorkflow] returns the tag and the URLs, whether the
    dispatch of [rebuild-image.yml] went through or threw, and the tag-dispatch
    stage then reports [awaiting_approval] with a completed log entry. A
    dispatch that went through names the tag, the CVE and, if the image name is
    a non-empty string, the image. *)
Theorem dispatch_failure_is_swallowed E state w branch :
  let now := clock E (tick w) in
  let params := tag_workflow_params state (tag_name (vulnerability state) now) in
  github_tag E params = Returns branch →
  let r := createTagWorkflowNode E state w in
  ∃ entry,
    r.1 = Returns [set_tagName (tw_tagName params);
                   set_workflowRunUrl "https://github.com/undefined/undefined/actions";
                   set_status awaiting_approval; set_stepLog [entry]]
    ∧ entry_status entry = step_completed
    ∧ tags r.2 = tags w ++ [tw_tagName params]
    ∧ (dispatches r.2 = dispatches w
       ∨ dispatches r.2
         = dispatches w ++
           [{| workflow_id := "rebuild-image.yml"; ref := branch;
               inputs := {| tag := tw_tagName params;
                            cve_id := cveId (vulnerability state);
                            vuln_id := None; callback_url := None;
                            image_name :=
                              if Js.truthy (imageName (vulnerability state))
                              then imageName (vulnerability state) else None |} |}]).
Proof.
  intros now params Htag r. subst r.
  unfold createTagWorkflowNode, createApprovalTagWorkflow, create_tag,
    createWorkflowDispatch, try_catch, bind, new_Date, logEntry, bind, new_Date, ret.
  simpl. fold now. fold params. rewrite Htag. simpl.
  destruct (github_dispatch E _) as [[]|err]; simpl; eexists; split_and!; eauto.
Qed.

Lemma dispatch_failure_is_swallowed_witness :
  github_tag failingDispatchCollaborators
    (tag_workflow_params (initial_state sampleContainerVuln)
       (tag_name sampleContainerVuln (sample_instant 0))) = Returns "main"
  ∧ ∃ entry,
      (createTagWorkflowNode failingDispatchCollaborators
         (initial_state sampleContainerVuln) new_world).1
      = Returns [set_tagName "rebuild/cve-2023-4911-2024-02-09T12-00-00";
                 set_workflowRunUrl "https://github.com/undefined/undefined/actions";
                 set_status awaiting_approval; set_stepLog [entry]]
      ∧ dispatches
          (createTagWorkflowNode failingDispatchCollaborators
             (initial_state sampleContainerVuln) new_world).2 = [].
Proof.
  split; [reflexivity|].
  destruct (dispatch_failure_is_swallowed failingDispatchCollaborators
              (initial_state sampleContainerVuln) new_world "main" eq_refl)
    as (entry & Hrun & _).
  exists entry. split; [exact Hrun|]. reflexivity.
Defined.

(** X13. The rebuild check is biased towards a fix by hand: the run goes from
    the rebuild check straight to tag-dispatch only if the answer of the
    language model was parsed and says that a rebuild would fix. An answer
    that is not text, cannot be parsed or says anything else sends the run to
    retrieval. *)
Theorem rebuild_only_on_explicit_yes E state w u w' before :
  tryRebuild E state w = (Returns u, w') →
  next_node n_tryRebuild (applyUpdate before u) = Some n_createTagWorkflow →
  ∃ reply text answer,
    llm_rebuild E (vulnerability state) = Returns reply
    ∧ content reply = Some text
    ∧ parsed reply = ParsedAs answer
    ∧ a_rebuildWouldFix answer = true.
Proof.
  unfold tryRebuild, bind, lift.
  destruct (llm_rebuild E (vulnerability state)) as [reply|err]; [|done].
  unfold rebuild_reply, parse_reply.
  destruct (content reply) as [text|] eqn:Hc;
    [destruct (parsed reply) as [answer|] eqn:Hp|]; simpl.
  - destruct (a_rebuildWouldFix answer) eqn:Hyes; intros [= <- <-]; simpl; [|done].
    intros _. by exists reply, text, answer.
  - by intros [= <- <-].
  - by intros [= <- <-].
Qed.

Lemma rebuild_only_on_explicit_yes_witness :
  ∃ u w',
    tryRebuild rebuildCollaborators (initial_state sampleContainerVuln) new_world
    = (Returns u, w')
    ∧ next_node n_tryRebuild (applyUpdate (initial_state sampleContainerVuln) u)
      = Some n_createTagWorkflow
    ∧ ∃ reply text answer,
        llm_rebuild rebuildCollaborators sampleContainerVuln = Returns reply
        ∧ content reply = Some text
        ∧ parsed reply = ParsedAs answer
        ∧ a_rebuildWouldFix answer = true.
Proof.
  eexists _, _. split; [reflexivity|]. split; [reflexivity|].
  exact (rebuild_only_on_explicit_yes rebuildCollaborators
           (initial_state sampleContainerVuln) new_world _ _
           (initial_state sampleContainerVuln) eq_refl eq_refl).
Defined.

(** No stage writes the vulnerability, and only classify writes the category. *)
Lemma stage_keys E n state w u w' :
  stage E n state w = (Returns u, w') →
  (k_vulnerability ∉ key_of <$> u)
  ∧ (n ≠ n_classifyVuln → k_category ∉ key_of <$> u).
Proof.
  destruct n; simpl;
    unfold classifyVuln, tryRebuild, searchRAG, researchFix, createPRNode,
      createTagWorkflowNode, verifyRebuildResult, storeInRAG,
      createApprovalTagWorkflow, create_tag, createWorkflowDispatch,
      createPullRequest, storeFix, searchFixes, fresh_uuid, verify,
      logEntry, new_Date, try_catch, bind, lift, ret;
    simpl;
    repeat (case_match; simplify_eq/=; try done);
    intros; simplify_eq/=;
    (split; [|intros Hn; try done]); rewrite ?not_elem_of_cons; split_and!;
      try done; apply not_elem_of_nil.
Qed.

Lemma next_node_not_classify n s n' : next_node n s = Some n' → n' ≠ n_classifyVuln.
Proof. intros Hn%next_node_rank ->. destruct n; simpl in Hn; lia. Qed.

Lemma run_keeps E fuel : ∀ n s w s' w',
  run E fuel n s w = (Returns (Some s'), w') →
  vulnerability s' = vulnerability s
  ∧ (n ≠ n_classifyVuln → category s' = category s).
Proof.
  induction fuel as [|fuel IH]; intros n s w s' w'; simpl; [done|].
  unfold bind at 1. destruct (superstep E n s w) as [[s1|err] w1] eqn:Hstep; [|done].
  apply superstep_update in Hstep as (u & Hst & ->).
  apply stage_keys in Hst as [Hv Hc].
  pose proof (same_channel_update u s k_vulnerability Hv) as Hsv. simpl in Hsv.
  destruct (next_node n (applyUpdate s u)) as [n'|] eqn:Hnext.
  - intros [Hv' Hc']%IH. split; [congruence|]. intros Hn.
    rewrite Hc' by (by eapply next_node_not_classify).
    symmetry. apply (same_channel_update u s k_category). by apply Hc.
  - intros [= <- <-]. split; [done|]. intros Hn.
    symmetry. apply (same_channel_update u s k_category). by apply Hc.
Qed.

Lemma run_S E fuel n s w :
  run E (S fuel) n s w
  = match superstep E n s w with
    | (Returns s1, w1) =>
        match next_node n s1 with
        | None => (Returns (Some s1), w1)
        | Some n' => run E fuel n' s1 w1
        end
    | (Throws err, w1) => (Throws err, w1)
    end.
Proof.
  simpl. unfold bind at 1. destruct (superstep E n s w) as [[s1|err] w1]; [|done].
  by destruct (next_node n s1).
Qed.

Lemma classify_update E state w u w' :
  classifyVuln E state w = (Returns u, w') →
  ∃ reply, llm_classify E (vulnerability state) = Returns reply
           ∧ ∀ before, category (applyUpdate before u)
                       = Some (classify_reply (vulnerability state) reply).1.
Proof.
  unfold classifyVuln, bind, lift.
  destruct (llm_classify E (vulnerability state)) as [reply|err]; [|done].
  destruct (classify_reply (vulnerability state) reply) as [c reason] eqn:Hcr.
  simpl. unfold bind, logEntry, new_Date, bind, ret. simpl.
  intros [= <- <-]. exists reply. split; [done|]. intros before.
  by rewrite Hcr.
Qed.

(** X14. A run never alters the vulnerability it remediates, and the category
    is decided once: the state a run returns carries the vulnerability the run
    was started with and the category that the classify stage returned. *)
Theorem run_keeps_vulnerability_and_category E vuln w final w' :
  invoke E vuln w = (Returns (Some final), w') →
  vulnerability final = vuln
  ∧ ∃ reply, llm_classify E vuln = Returns reply
             ∧ category final = Some (classify_reply vuln reply).1.
Proof.
  intros Hrun. split; [by apply run_keeps in Hrun as [? _]|].
  revert Hrun. unfold invoke. rewrite run_S.
  destruct (superstep E n_classifyVuln (initial_state vuln) w) as [[s1|err] w1]
    eqn:Hstep; [|done].
  apply superstep_update in Hstep as (u & Hst & ->). simpl in Hst.
  apply classify_update in Hst as (reply & Hllm & Hcat). simpl in Hllm.
  exists reply. split; [done|].
  destruct (next_node n_classifyVuln (applyUpdate (initial_state vuln) u))
    as [n'|] eqn:Hnext; [|done].
  apply run_keeps in Hrun as [_ Hc]. rewrite Hc; [apply Hcat|].
  by eapply next_node_not_classify.
Qed.

Lemma run_keeps_vulnerability_and_category_witness :
  ∃ final w',
    invoke plainCollaborators sampleCodeVuln new_world = (Returns (Some final), w')
    ∧ vulnerability final = sampleCodeVuln.
Proof.
  eexists _, _. split; [vm_compute; reflexivity|].
  refine (proj1 (run_keeps_vulnerability_and_category plainCollaborators
                   sampleCodeVuln new_world _ _ _)).
  vm_compute. reflexivity.
Defined.

(** X15. Every stage of [agentNodes.ts] keeps to its own service: none touches
    the pending-rebuild store, only tag-dispatch creates tags and dispatches,
    only create-pr opens pull requests, only store-fix writes to the fix index;
    and every stage that returns logs exactly one entry, under its own name. *)
Theorem stage_effects_are_confined E n state w u w' :
  n ≠ n_verifyRebuildResult →
  stage E n state w = (Returns u, w') →
  rebuilds w' = rebuilds w
  ∧ (n ≠ n_createTagWorkflow → tags w' = tags w ∧ dispatches w' = dispatches w)
  ∧ (n ≠ n_createPR → pullRequests w' = pullRequests w)
  ∧ (n ≠ n_storeInRAG → fixIndex w' = fixIndex w)
  ∧ ∃ entry, appended u = [entry] ∧ node entry = node_name n.
Proof.
  intros Hn.
  destruct n; try done; simpl;
    unfold classifyVuln, tryRebuild, searchRAG, researchFix, createPRNode,
      createTagWorkflowNode, storeInRAG,
      createApprovalTagWorkflow, create_tag, createWorkflowDispatch,
      createPullRequest, storeFix, searchFixes, fresh_uuid,
      logEntry, new_Date, try_catch, bind, lift, ret;
    simpl;
    repeat (case_match; simplify_eq/=; try done);
    intros; simplify_eq/=; unfold appended; simpl;
    split_and!; try done; eauto.
Qed.

Lemma stage_effects_are_confined_witness :
  n_createPR ≠ n_verifyRebuildResult
  ∧ ∃ u w', stage plainCollaborators n_createPR (initial_state sampleCodeVuln) new_world
            = (Returns u, w')
            ∧ fixIndex w' = fixIndex new_world ∧ tags w' = tags new_world.
Proof.
  split; [done|]. eexists _, _. split; [reflexivity|].
  destruct (stage_effects_are_confined plainCollaborators n_createPR
              (initial_state sampleCodeVuln) new_world _ _ ltac:(done) eq_refl)
    as (_ & Htag & _ & Hfix & _).
  split; [by apply Hfix|]. by apply Htag.
Defined.

Lemma stage_quiet E n state w u w' :
  code_node n = true ∨ n = n_classifyVuln →
  stage E n state w = (Returns u, w') →
  rebuilds w' = rebuilds w ∧ tags w' = tags w ∧ dispatches w' = dispatches w
  ∧ ∃ entry, appended u = [entry] ∧ node entry = node_name n.
Proof.
  intros Hn.
  destruct n; try (by destruct Hn); simpl;
    unfold classifyVuln, searchRAG, researchFix, createPRNode, storeInRAG,
      createPullRequest, storeFix, searchFixes, fresh_uuid,
      logEntry, new_Date, try_catch, bind, lift, ret;
    simpl;
    repeat (case_match; simplify_eq/=; try done);
    intros; simplify_eq/=; unfold appended; simpl;
    split_and!; try done; eauto.
Qed.

Lemma code_run E fuel : ∀ n s w s' w',
  code_node n = true → category s = Some code →
  run E fuel n s w = (Returns (Some s'), w') →
  tags w' = tags w ∧ dispatches w' = dispatches w ∧ rebuilds w' = rebuilds w
  ∧ status s' = resolved
  ∧ ∃ new, stepLog s' = stepLog s ++ new
           ∧ Forall (λ e, node e ∈ code_stage_names) new.
Proof.
  induction fuel as [|fuel IH]; intros n s w s' w' Hn Hcat; [done|].
  rewrite run_S.
  destruct (superstep E n s w) as [[s1|err] w1] eqn:Hstep; [|done].
  apply superstep_update in Hstep as (u & Hst & ->).
  destruct (stage_quiet E n s w u w1 (or_introl Hn) Hst)
    as (Hreb & Htag & Hdis & entry & Hlog & Hname).
  assert (category (applyUpdate s u) = Some code) as Hcat1.
  { rewrite <- Hcat. symmetry. apply (same_channel_update u s k_category).
    apply (stage_keys E n s w u w1 Hst). by intros ->. }
  assert (node entry ∈ code_stage_names) as Hin.
  { rewrite Hname. destruct n; try done; apply (bool_decide_unpack _);
      vm_compute; exact I. }
  assert (n = n_storeInRAG → status (applyUpdate s u) = resolved) as Hstore.
  { intros ->. revert Hst. simpl.
    unfold storeInRAG, try_catch, bind, fresh_uuid, new_Date, storeFix,
      logEntry, bind, new_Date, ret. simpl.
    destruct (upload_fix E _) as [[]|err]; simpl; by intros [= <- <-]. }
  pose proof (stepLog_applyUpdate s u) as Hlg. rewrite Hlog in Hlg.
  set (s1 := applyUpdate s u) in *. clearbody s1.
  destruct (next_node n s1) as [n'|] eqn:Hnext.
  - intros Hrun.
    assert (code_node n' = true) as Hn'.
    { revert Hnext. destruct n; try done; simpl;
        unfold after_searchRAG, after_researchFix; rewrite ?Hcat1.
      - rewrite (bool_decide_eq_false_2 (Some code = Some container)) by done.
        rewrite andb_false_r, andb_true_r.
        destruct (ragFixApplicable s1); by intros [= <-].
      - case_decide; [done|]. by intros [= <-].
      - by intros [= <-]. }
    destruct (IH n' _ _ _ _ Hn' Hcat1 Hrun) as (-> & -> & -> & Hres & new & Hnew & Hall).
    split_and!; try done. exists (entry :: new). split.
    + rewrite Hnew, Hlg. by rewrite <- app_assoc.
    + by constructor.
  - intros [= <- <-]. split_and!; try done.
    + apply Hstore. revert Hnext. by destruct n.
    + exists [entry]. split; [done|]. by constructor.
Qed.

(** X16. A vulnerability classified as code is remediated by pull request
    only: a run that returns with category code has passed classify and then
    only retrieval, research, create-pr and store-fix, has created no tag, sent
    no workflow dispatch and left the pending-rebuild store alone, and it ends
    with status [resolved]. *)
Theorem code_runs_stay_on_the_pr_path E vuln w final w' :
  invoke E vuln w = (Returns (Some final), w') →
  category final = Some code →
  tags w' = tags w ∧ dispatches w' = dispatches w ∧ rebuilds w' = rebuilds w
  ∧ status final = resolved
  ∧ ∃ rest, node <$> stepLog final = "classifyVuln" :: rest
            ∧ Forall (λ name, name ∈ code_stage_names) rest.
Proof.
  unfold invoke. rewrite run_S. intros Hrun Hcode. revert Hrun.
  destruct (superstep E n_classifyVuln (initial_state vuln) w) as [[s1|err] w1]
    eqn:Hstep; [|done].
  apply superstep_update in Hstep as (u & Hst & ->).
  destruct (stage_quiet E n_classifyVuln _ w u w1 (or_intror eq_refl) Hst)
    as (Hreb & Htag & Hdis & entry & Hlog & Hname).
  pose proof (stepLog_applyUpdate (initial_state vuln) u) as Hlg.
  rewrite Hlog in Hlg. simpl in Hlg.
  set (s1 := applyUpdate (initial_state vuln) u) in *. clearbody s1.
  simpl. unfold after_classifyVuln. intros Hrun.
  assert (category s1 = Some code) as Hcat1.
  { rewrite <- Hcode. symmetry. apply (run_keeps E 24 _ s1 w1 final w' Hrun).
    by case_decide. }
  rewrite Hcat1 in Hrun. simpl in Hrun.
  destruct (code_run E 24 n_searchRAG _ _ _ _ eq_refl Hcat1 Hrun)
    as (-> & -> & -> & Hres & new & Hnew & Hall).
  split_and!; try done.
  exists (node <$> new). split.
  - rewrite Hnew, Hlg. simpl. by rewrite Hname.
  - by apply Forall_fmap.
Qed.

Lemma code_runs_stay_on_the_pr_path_witness :
  ∃ final w',
    invoke plainCollaborators sampleCodeVuln new_world = (Returns (Some final), w')
    ∧ category final = Some code
    ∧ tags w' = tags new_world ∧ status final = resolved.
Proof.
  eexists _, _. split; [vm_compute; reflexivity|]. split; [reflexivity|].
  destruct (code_runs_stay_on_the_pr_path plainCollaborators sampleCodeVuln
              new_world _ _ ltac:(vm_compute; reflexivity) eq_refl)
    as (Ht & _ & _ & Hs & _).
  by split.
Defined.

(** * Properties of the routes *)

Module RoutesSpec.
Import Routes.

(** X17. [POST /api/vulnerabilities] stores what it answers: the answer is
    201 with the vulnerability, which has the id of the request or, if the
    request has none, a fresh uuid; the vulnerability is then in the map under
    that id, replacing whatever was stored under it, every other record is as
    before, and every record is still stored under its own id. *)
Theorem post_vulnerability_stores E req srv w :
  keyed srv →
  ∃ vuln w',
    post_vulnerability E req srv w
    = (Returns ({| code := 201; payload := body_vulnerability vuln |},
                {| vulnerabilities := <[id vuln := vuln]> (vulnerabilities srv);
                   remediationResults := remediationResults srv |}), w')
    ∧ id vuln = default (uuidv4 E (uuids w)) (req_id req)
    ∧ cveId vuln = cveId (fields req)
    ∧ (∀ k, k ≠ id vuln →
         <[id vuln := vuln]> (vulnerabilities srv) !! k = vulnerabilities srv !! k)
    ∧ <[id vuln := vuln]> (vulnerabilities srv) !! id vuln = Some vuln
    ∧ keyed {| vulnerabilities := <[id vuln := vuln]> (vulnerabilities srv);
               remediationResults := remediationResults srv |}.
Proof.
  intros Hkeyed. unfold post_vulnerability, or_else, bind, fresh_uuid, new_Date, ret.
  destruct (req_id req) as [i|]; destruct (req_createdAt req) as [c|]; simpl;
    match goal with
    | |- ∃ _ _, (Returns ({| code := _; payload := body_vulnerability ?v |}, _), ?w0)
                = _ ∧ _ => exists v, w0
    end;
    (split; [reflexivity|]); simpl; split_and!; try done.
  all: try (intros k Hk; by rewrite lookup_insert_ne).
  all: try apply lookup_insert_eq.
  all: intros k v Hk; simpl in Hk;
    apply lookup_insert_Some in Hk as [[<- <-]|[_ Hv]]; simpl;
    [done|by apply Hkeyed].
Qed.

Lemma keyed_empty : keyed empty_server.
Proof. intros k v Hv. simpl in Hv. by rewrite lookup_empty in Hv. Qed.

Lemma post_vulnerability_stores_witness :
  keyed empty_server
  ∧ ∃ vuln w',
      post_vulnerability plainCollaborators sampleRequest empty_server new_world
      = (Returns ({| code := 201; payload := body_vulnerability vuln |},
                  {| vulnerabilities := <[id vuln := vuln]> ∅;
                     remediationResults := ∅ |}), w')
      ∧ id vuln = "00000000-0000-4000-8000-000000000000".
Proof.
  split; [apply keyed_empty|].
  destruct (post_vulnerability_stores plainCollaborators sampleRequest empty_server
              new_world keyed_empty) as (vuln & w' & Hrun & Hid & _).
  exists vuln, w'. split; [exact Hrun|]. exact Hid.
Defined.

(** X18. Remediate, then fetch. When the vulnerability is stored and the run
    of the graph returns, [POST /api/remediate/:id] answers 200 with the final
    state, and [GET /api/remediation/:id] for the same id then answers that
    state. The stored vulnerabilities are not changed. *)
Theorem remediate_then_fetch E i srv w vuln final w' :
  keyed srv → vulnerabilities srv !! i = Some vuln →
  invoke E vuln w = (Returns (Some final), w') →
  ∃ srv',
    post_remediate E i srv w
    = (Returns ({| code := 200; payload := body_state final |}, srv'), w')
    ∧ get_remediation i srv' = {| code := 200; payload := body_state final |}
    ∧ vulnerabilities srv' = vulnerabilities srv
    ∧ ∀ k, k ≠ i → get_remediation k srv' = get_remediation k srv.
Proof.
  intros Hkeyed Hv Hrun. pose proof (Hkeyed i vuln Hv) as Hid.
  unfold post_remediate. rewrite Hv.
  unfold try_catch, bind. rewrite Hrun. simpl. rewrite Hid.
  eexists. split; [reflexivity|].
  unfold get_remediation. simpl. rewrite lookup_insert_eq. split_and!; try done.
  intros k Hk. by rewrite lookup_insert_ne.
Qed.

Lemma keyed_sampleServer : keyed sampleServer.
Proof.
  intros k v Hv. simpl in Hv. by apply lookup_singleton_Some in Hv as [<- <-].
Qed.

Lemma remediate_then_fetch_witness :
  keyed sampleServer
  ∧ vulnerabilities sampleServer !! "test-vuln-code-001" = Some sampleCodeVuln
  ∧ ∃ final w' srv',
      invoke plainCollaborators sampleCodeVuln new_world = (Returns (Some final), w')
      ∧ post_remediate plainCollaborators "test-vuln-code-001" sampleServer new_world
        = (Returns ({| code := 200; payload := body_state final |}, srv'), w')
      ∧ get_remediation "test-vuln-code-001" srv'
        = {| code := 200; payload := body_state final |}.
Proof.
  assert (vulnerabilities sampleServer !! "test-vuln-code-001" = Some sampleCodeVuln)
    as Hv by (vm_compute; reflexivity).
  split; [apply keyed_sampleServer|]. split; [exact Hv|].
  destruct (invoke plainCollaborators sampleCodeVuln new_world)
    as [[[final|]|err] w'] eqn:Hrun; try (vm_compute in Hrun; discriminate).
  destruct (remediate_then_fetch plainCollaborators "test-vuln-code-001" sampleServer
              new_world sampleCodeVuln final w' keyed_sampleServer Hv Hrun)
    as (srv' & Hpost & Hget & _).
  by exists final, w', srv'.
Defined.

(** X19. [POST /api/remediate/:id] always answers, and writes a result only
    with a 200. For an id that is not stored it answers 404 and changes neither
    the maps nor the world; when the run throws it answers 500 with the message
    of the error and leaves the maps as they are, while the effects the run had
    up to the error stay in the world. *)
Theorem remediate_always_answers E i srv w :
  ∃ resp srv' w',
    post_remediate E i srv w = (Returns (resp, srv'), w')
    ∧ vulnerabilities srv' = vulnerabilities srv
    ∧ ((∃ vuln final,
          vulnerabilities srv !! i = Some vuln
          ∧ invoke E vuln w = (Returns (Some final), w')
          ∧ resp = {| code := 200; payload := body_state final |}
          ∧ remediationResults srv' = <[id vuln := final]> (remediationResults srv))
       ∨ (vulnerabilities srv !! i = None
          ∧ resp = {| code := 404; payload := body_error "Vulnerability not found" |}
          ∧ srv' = srv ∧ w' = w)
       ∨ (∃ vuln err,
            vulnerabilities srv !! i = Some vuln
            ∧ invoke E vuln w = (Throws err, w')
            ∧ resp = {| code := 500; payload := body_error err |}
            ∧ srv' = srv)).
Proof.
  unfold post_remediate. destruct (vulnerabilities srv !! i) as [vuln|] eqn:Hv.
  - unfold try_catch, bind.
    destruct (invoke E vuln w) as [[[final|]|err] w1] eqn:Hrun; simpl.
    + eexists _, _, _. split; [done|]. split; [done|]. left. by exists vuln, final.
    + exfalso. by apply (run_enough_fuel E 25 n_classifyVuln (initial_state vuln) w);
        [simpl; lia|unfold invoke in Hrun; rewrite Hrun].
    + eexists _, _, _. split; [done|]. split; [done|]. right. right.
      by exists vuln, err.
  - eexists _, _, _. split; [done|]. split; [done|]. right. left. done.
Qed.

End RoutesSpec.

(** * Properties of the streaming route *)

Module StreamingSpec.
Import Routes Streaming.

Lemma stream_run E fuel : ∀ n s w,
  let '(updates, outcome, w') := stream E fuel n s w in
  run E fuel n s w = (outcome, w')
  ∧ (∀ s', outcome = Returns (Some s') →
       stepLog s' = stepLog s ++ concat (appended <$> updates)).
Proof.
  induction fuel as [|fuel IH]; intros n s w; [done|].
  cbn [stream]. rewrite run_S. unfold superstep, bind, ret.
  destruct (stage E n s w) as [[u|err] w1]; [|done].
  destruct (next_node n (applyUpdate s u)) as [n'|].
  - specialize (IH n' (applyUpdate s u) w1).
    destruct (stream E fuel n' (applyUpdate s u) w1) as [[us o] w2].
    destruct IH as [Hrun Hlog]. split; [done|].
    intros s' Hs'. rewrite (Hlog s' Hs'), stepLog_applyUpdate. simpl.
    by rewrite <- app_assoc.
  - split; [done|]. intros s' [= <-]. rewrite stepLog_applyUpdate. simpl.
    by rewrite app_nil_r.
Qed.

Lemma steps_sent_events_of u : steps_sent (events_of u) = appended u.
Proof.
  unfold steps_sent, events_of. rewrite omap_app. simpl. rewrite app_nil_r.
  generalize (appended u). intros l.
  induction l as [|e l IH]; [done|]. rewrite fmap_cons. simpl. f_equal. exact IH.
Qed.

Lemma steps_sent_app l1 l2 : steps_sent (l1 ++ l2) = steps_sent l1 ++ steps_sent l2.
Proof. apply omap_app. Qed.

Lemma steps_sent_concat us :
  steps_sent (concat (events_of <$> us)) = concat (appended <$> us).
Proof.
  induction us as [|u us IH]; [done|]. rewrite !fmap_cons. cbn [concat].
  by rewrite steps_sent_app, steps_sent_events_of, IH.
Qed.

(** X20. Streaming a remediation runs the graph twice. When both runs return,
    the step events sent are the step log of the first run, in order, followed
    by one [done]; the state stored for [GET /api/remediation/:id] is the one
    of the second run, which started in the world the first run left behind;
    and the world after the request is the world after the second run. *)
Theorem streaming_runs_the_graph_twice E i srv w vuln first w1 second w2 :
  keyed srv → vulnerabilities srv !! i = Some vuln →
  invoke E vuln w = (Returns (Some first), w1) →
  invoke E vuln w1 = (Returns (Some second), w2) →
  ∃ events srv',
    stream_remediate E i srv w = (streamed (events ++ [sse_done "Remediation complete"]),
                                  srv', w2)
    ∧ steps_sent events = stepLog first
    ∧ steps_sent (events ++ [sse_done "Remediation complete"]) = stepLog first
    ∧ get_remediation i srv' = {| code := 200; payload := body_state second |}.
Proof.
  intros Hkeyed Hv H1 H2. pose proof (Hkeyed i vuln Hv) as Hid.
  unfold stream_remediate. rewrite Hv.
  pose proof (stream_run E 25 n_classifyVuln (initial_state vuln) w) as Hs.
  destruct (stream E 25 n_classifyVuln (initial_state vuln) w) as [[us o] w1'].
  destruct Hs as [Hrun Hlog]. unfold invoke in H1. rewrite H1 in Hrun.
  injection Hrun as <- <-. rewrite H2. rewrite Hid.
  eexists _, _. split; [reflexivity|].
  assert (steps_sent (concat (events_of <$> us)) = stepLog first) as Hsent.
  { rewrite steps_sent_concat. by rewrite (Hlog first eq_refl). }
  split_and!.
  - done.
  - rewrite steps_sent_app, Hsent. simpl. by rewrite app_nil_r.
  - unfold get_remediation. simpl. by rewrite lookup_insert_eq.
Qed.

Lemma streaming_runs_the_graph_twice_witness :
  keyed sampleServer
  ∧ vulnerabilities sampleServer !! "test-vuln-code-001" = Some sampleCodeVuln
  ∧ ∃ first w1 second w2,
      invoke plainCollaborators sampleCodeVuln new_world = (Returns (Some first), w1)
      ∧ invoke plainCollaborators sampleCodeVuln w1 = (Returns (Some second), w2)
      ∧ length (fixIndex w2) = 2
      ∧ ∃ events srv',
          stream_remediate plainCollaborators "test-vuln-code-001" sampleServer
            new_world
          = (streamed (events ++ [sse_done "Remediation complete"]), srv', w2)
          ∧ steps_sent events = stepLog first.
Proof.
  assert (vulnerabilities sampleServer !! "test-vuln-code-001" = Some sampleCodeVuln)
    as Hv by (vm_compute; reflexivity).
  split; [apply RoutesSpec.keyed_sampleServer|]. split; [exact Hv|].
  destruct (invoke plainCollaborators sampleCodeVuln new_world)
    as [[[first|]|err1] w1] eqn:H1; try (vm_compute in H1; discriminate).
  destruct (invoke plainCollaborators sampleCodeVuln w1)
    as [[[second|]|err2] w2] eqn:H2.
  - exists first, w1, second, w2. split; [done|]. split; [done|]. split.
    + vm_compute in H1. injection H1 as <- <-. vm_compute in H2.
      by injection H2 as <- <-.
    + destruct (streaming_runs_the_graph_twice plainCollaborators
                  "test-vuln-code-001" sampleServer new_world sampleCodeVuln
                  first w1 second w2 RoutesSpec.keyed_sampleServer Hv H1 H2)
        as (events & srv' & Hrun & Hsent & _).
      by exists events, srv'.
  - exfalso. vm_compute in H1. injection H1 as <- <-. vm_compute in H2. discriminate.
  - exfalso. vm_compute in H1. injection H1 as <- <-. vm_compute in H2. discriminate.
Defined.

End StreamingSpec.

(** * Properties of the Dependabot parser *)

Module DependabotSpec.
Import Dependabot.

Lemma or_str_nonempty a fallback :
  fallback ≠ EmptyString → or_str a fallback ≠ EmptyString.
Proof.
  intros Hf. unfold or_str. destruct a as [s|]; [|done].
  unfold Js.truthy_string. destruct (String.eqb_spec s EmptyString); simpl; done.
Qed.

Lemma truthy_default_nonempty o :
  Js.truthy o = true → default EmptyString o ≠ EmptyString.
Proof. intros (x & -> & Hx)%truthy_spec. done. Qed.

Lemma alert_cveId_nonempty E a w :
  ∃ c w', alert_cveId E a w = (Returns c, w') ∧ c ≠ EmptyString.
Proof.
  unfold alert_cveId.
  destruct (Js.truthy (chain (security_advisory a) cve_id)) eqn:H1.
  { eexists _, _. split; [done|]. by apply truthy_default_nonempty. }
  destruct (Js.truthy (chain (security_advisory a) ghsa_id)) eqn:H2.
  { eexists _, _. split; [done|]. by apply truthy_default_nonempty. }
  destruct (number a) as [n|]; [destruct (n =? 0)%N|];
    unfold bind, fresh_uuid, ret; simpl; eexists _, _; (split; [done|]); done.
Qed.

Lemma parse_alert_well_formed E a w :
  ∃ v w', parseDependabotVulnerability E a w = (Returns v, w') ∧ well_formed v.
Proof.
  unfold parseDependabotVulnerability.
  destruct (alert_cveId_nonempty E a w) as (c & w1 & Hc & Hne).
  unfold bind at 1. rewrite Hc.
  unfold bind, fresh_uuid, new_Date, ret.
  destruct (Js.truthy (created_at a)); simpl; eexists _, _; (split; [done|]);
    unfold well_formed; simpl; split_and!; try done;
    try (repeat apply or_str_nonempty; done).
  all: match goal with |- context [if ?b then Some _ else None] => destruct b end;
    simpl; auto.
Qed.

Lemma mapM_parse E l : ∀ w,
  ∃ vs w', mapM (parseDependabotVulnerability E) l w = (Returns vs, w')
           ∧ length vs = length l ∧ Forall well_formed vs.
Proof.
  induction l as [|a l IH]; intros w; simpl.
  - eexists _, _. split; [done|]. split; [done|]. constructor.
  - destruct (parse_alert_well_formed E a w) as (v & w1 & Hv & Hwf).
    destruct (IH w1) as (vs & w2 & Hvs & Hlen & Hall).
    unfold bind at 1. rewrite Hv. unfold bind at 1. rewrite Hvs.
    eexists _, _. split; [done|]. split; [simpl; by rewrite Hlen|].
    by constructor.
Qed.

Lemma dependabot_alerts_are_normalised_helper E scan w :
  ∃ vulns w',
    parseDependabotScanResult E scan w = (Returns vulns, w') ∧ Forall well_formed vulns.
Proof.
  unfold parseDependabotScanResult. destruct (alerts scan) as [l|]; simpl.
  - case_decide as Hlen.
    + eexists _, _. split; [done|]. constructor.
    + destruct (mapM_parse E (filter (λ a, open_alert a = true) l) w)
        as (vs & w1 & Hvs & _ & Hall). by exists vs, w1.
  - eexists _, _. split; [done|]. constructor.
Qed.


(** X22. An alert that Dependabot raised is never classified as a container
    issue by the fallback of the classify stage: when the answer of the
    language model cannot be parsed, every vulnerability this parser made,
    images of the docker ecosystem included, is classified as code. *)
Theorem dependabot_alerts_fall_back_to_code E scan w vulns w' v reply :
  parseDependabotScanResult E scan w = (Returns vulns, w') →
  v ∈ vulns → parse_reply reply = Unparseable →
  (classify_reply v reply).1 = code.
Proof.
  intros Hparse Hin Hreply.
  destruct (dependabot_alerts_are_normalised_helper E scan w) as (vs & w1 & Hvs & Hall).
  rewrite Hparse in Hvs. injection Hvs as <- <-.
  rewrite Forall_forall in Hall. destruct (Hall v Hin) as (Hsrc & _).
  unfold classify_reply. rewrite Hreply. unfold classify_fallback, isOsPkg.
  by rewrite Hsrc.
Qed.

Lemma dependabot_alerts_fall_back_to_code_witness :
  ∃ v w',
    parseDependabotScanResult plainCollaborators sampleScan new_world
    = (Returns [v], w')
    ∧ cveId v = "DEPENDABOT-17" ∧ severity v = medium
    ∧ imageName v = Some "node" ∧ filePath v = None
    ∧ (classify_reply v not_json).1 = code.
Proof.
  eexists _, _. split; [vm_compute; reflexivity|].
  split; [reflexivity|]. split; [reflexivity|]. split; [reflexivity|].
  split; [reflexivity|].
  refine (dependabot_alerts_fall_back_to_code plainCollaborators sampleScan new_world
            _ _ _ not_json _ _ eq_refl).
  - vm_compute. reflexivity.
  - apply list_elem_of_here.
Defined.

End DependabotSpec.

(** * Properties of the SARIF import and export *)

Module SarifSpec.
Import Sarif.








Lemma sarif_source_not_trivy toolName : String.eqb ("sarif:" +:+ toolName) "trivy" = false.
Proof. reflexivity. Qed.




End SarifSpec.

(** * How the stages compose *)

(** X25. Research, then create-pr: when the research answer of the language
    model cannot be parsed, the text of the answer becomes the proposed fix and
    no patch is recorded, so that the create-pr stage that follows fails with
    "No patch content" and does not call GitHub. *)
Theorem unparsed_research_opens_no_pull_request E state w reply :
  llm_research E state = Returns reply → parse_reply reply = Unparseable →
  ∃ u w1 u' w2,
    researchFix E state w = (Returns u, w1)
    ∧ proposedFix (applyUpdate state u) = reply_text reply
    ∧ patchContent (applyUpdate state u) = EmptyString
    ∧ createPRNode E (applyUpdate state u) w1 = (Returns u', w2)
    ∧ status (applyUpdate (applyUpdate state u) u') = failed
    ∧ error (applyUpdate (applyUpdate state u) u')
      = "No patch content generated — cannot create PR."
    ∧ pullRequests w2 = pullRequests w.
Proof.
  intros Hllm Hparse.
  unfold researchFix, bind, lift. rewrite Hllm. unfold research_reply. rewrite Hparse.
  unfold logEntry, new_Date, bind, ret. simpl.
  eexists _, _, _, _. split; [reflexivity|]. split; [reflexivity|].
  split; [reflexivity|]. unfold createPRNode, pr_files. simpl.
  unfold bind, logEntry, new_Date, bind, ret. simpl.
  split; [reflexivity|]. done.
Qed.

Lemma unparsed_research_opens_no_pull_request_witness :
  llm_research plainCollaborators (initial_state sampleCodeVuln) = Returns not_json
  ∧ parse_reply (not_json (A := ResearchAnswer)) = Unparseable
  ∧ ∃ u w1 u' w2,
      researchFix plainCollaborators (initial_state sampleCodeVuln) new_world
      = (Returns u, w1)
      ∧ createPRNode plainCollaborators (applyUpdate (initial_state sampleCodeVuln) u) w1
        = (Returns u', w2)
      ∧ pullRequests w2 = [].
Proof.
  split; [reflexivity|]. split; [reflexivity|].
  destruct (unparsed_research_opens_no_pull_request plainCollaborators
              (initial_state sampleCodeVuln) new_world not_json eq_refl eq_refl)
    as (u & w1 & u' & w2 & Hr & _ & _ & Hpr & _ & _ & Hnone).
  exists u, w1, u', w2. split; [exact Hr|]. split; [exact Hpr|]. exact Hnone.
Defined.

(** X26. Create-pr, then store-fix: when the pull request was opened and the
    fix index takes the upload, the index grows by exactly one fix, which
    records the CVE and package of the vulnerability, the patch that was
    committed and the URL of the pull request, and the run ends resolved. *)
Theorem stored_fix_records_the_pull_request E state w u w1 pr :
  patchContent state ≠ EmptyString → r_prUrl pr ≠ EmptyString →
  createPRNode E state w
  = (Returns [set_prUrl (r_prUrl pr); set_status creating_pr; u], w1) →
  (∀ fix_, upload_fix E fix_ = Returns ()) →
  let state1 := applyUpdate state [set_prUrl (r_prUrl pr); set_status creating_pr; u] in
  ∃ u' w2 fix_,
    storeInRAG E state1 w1 = (Returns u', w2)
    ∧ fixIndex w2 = fixIndex w1 ++ [fix_]
    ∧ sf_cveId fix_ = cveId (vulnerability state)
    ∧ sf_packageName fix_ = packageName (vulnerability state)
    ∧ sf_patchContent fix_ = Some (patchContent state)
    ∧ sf_prUrl fix_ = Some (r_prUrl pr)
    ∧ status (applyUpdate state1 u') = resolved.
Proof.
  intros Hpatch Hurl Hpr Hup state1.
  assert (∃ entry, u = set_stepLog [entry]) as [entry ->].
  { revert Hpr. unfold createPRNode, pr_files.
    destruct (Js.truthy_string (patchContent state)); simpl.
    - unfold try_catch, bind, createPullRequest.
      destruct (github_pull_request E _) as [pr'|err]; simpl.
      + unfold logEntry, new_Date, bind, ret. simpl. intros [= _ <- _]. by eexists.
      + unfold logEntry, new_Date, bind, ret. simpl. intros [=].
    - unfold logEntry, new_Date, bind, ret. simpl. intros [=]. }
  subst state1. unfold storeInRAG, try_catch, bind, fresh_uuid, new_Date, storeFix.
  simpl. rewrite Hup. simpl. unfold logEntry, new_Date, bind, ret. simpl.
  eexists _, _, _. split; [reflexivity|]. simpl. split; [reflexivity|].
  unfold stored_fix, Js.or_undefined, Js.truthy_string, reducer_latest. simpl.
  destruct (String.eqb_spec (patchContent state) EmptyString) as [|_]; [done|].
  destruct (String.eqb_spec (r_prUrl pr) EmptyString) as [|_]; [done|].
  done.
Qed.

Lemma stored_fix_records_the_pull_request_witness :
  let state := applyUpdate (initial_state sampleCodeVuln) [set_patchContent "+ fix"] in
  ∃ pr u w1,
    patchContent state ≠ EmptyString ∧ r_prUrl pr ≠ EmptyString
    ∧ createPRNode plainCollaborators state new_world
      = (Returns [set_prUrl (r_prUrl pr); set_status creating_pr; u], w1)
    ∧ ∃ u' w2 fix_,
        storeInRAG plainCollaborators
          (applyUpdate state [set_prUrl (r_prUrl pr); set_status creating_pr; u]) w1
        = (Returns u', w2)
        ∧ fixIndex w2 = fixIndex w1 ++ [fix_]
        ∧ sf_prUrl fix_ = Some (r_prUrl pr).
Proof.
  intros state.
  exists {| r_prUrl := "https://github.com/test-org/test-repo/pull/1"; prNumber := 1 |}.
  eexists _, _. split; [done|]. split; [done|]. split; [vm_compute; reflexivity|].
  destruct (stored_fix_records_the_pull_request plainCollaborators state new_world
              _ _ {| r_prUrl := "https://github.com/test-org/test-repo/pull/1";
                     prNumber := 1 |}
              ltac:(done) ltac:(done) ltac:(vm_compute; reflexivity)
              ltac:(intros; reflexivity))
    as (u' & w2 & fix_ & Hs & Hidx & _ & _ & _ & Hurl & _).
  by exists u', w2, fix_.
Defined.
